(** * Batching and result aggregation of the PyWren workshop notebooks

    A shallow embedding of the glue code of
    [Lab-3-Scrape-Sentiment/news_analyzer.ipynb] (Python 2) and of the
    Landsat NDVI notebook stored in the same file: the list batcher
    [split_list], the word-frequency aggregation loop [all_words], the
    [top20] selection, the [sentiments] projection and the
    [filter(None, ...)] / series projections of the NDVI results.

    Python integers are unbounded and are modelled as [Z]; [str] as
    [string] (byte strings, compared bytewise as Python 2 does); a [dict]
    with string keys as [gmap string _]; [None] as [option]; a raised
    exception as the [Raise] outcome of the [result] type. *)

From Stdlib Require Import ZArith Lia Ascii.
From stdpp Require Import gmap strings list fin_maps sorting.

(** ** Outcomes of Python code: a value or a raised exception *)

Inductive exn : Set :=
  | ZeroDivisionError
  | IndexError
  | ValueError
  | KeyError
  | TypeError.

Inductive result (A : Type) : Type :=
  | Ok (a : A)
  | Raise (e : exn).
Arguments Ok {A} a.
Arguments Raise {A} e.

#[global] Instance exn_eq_dec : EqDecision exn.
Proof. solve_decision. Defined.

#[global] Instance result_ret : MRet result := λ A a, Ok a.
#[global] Instance result_bind : MBind result := λ A B f r,
  match r with
  | Ok a => f a
  | Raise e => Raise e
  end.

(** [for x in l: acc = f(acc, x)], stopping at the first exception. *)
Fixpoint for_each {S X : Type} (f : S → X → result S) (l : list X) (acc : S)
  : result S :=
  match l with
  | [] => Ok acc
  | x :: l' => acc' ← f acc x; for_each f l' acc'
  end.

(** A list comprehension [[f(x) for x in l]], stopping at the first
    exception. *)
Fixpoint comprehension {X Y : Type} (f : X → result Y) (l : list X)
  : result (list Y) :=
  match l with
  | [] => Ok []
  | x :: l' => y ← f x; ys ← comprehension f l'; mret (y :: ys)
  end.

(** A filtered comprehension [[f(x) for x in l if cond(x)]]. *)
Fixpoint comprehension_if {X Y : Type} (cond : X → result bool)
    (f : X → result Y) (l : list X) : result (list Y) :=
  match l with
  | [] => Ok []
  | x :: l' =>
      b ← cond x;
      if b : bool
      then y ← f x; ys ← comprehension_if cond f l'; mret (y :: ys)
      else comprehension_if cond f l'
  end.

(** ** Python primitives used by the notebooks *)

(** [a // b] on integers: floor division, [ZeroDivisionError] when
    [b = 0]. [Z.div] rounds towards minus infinity like Python. *)
Definition floordiv (a b : Z) : result Z :=
  if decide (b = 0)%Z then Raise ZeroDivisionError else Ok (a `div` b)%Z.

(** [range(n)]: [0, 1, ..., n-1], empty when [n <= 0]. *)
Definition range (n : Z) : list Z := Z.of_nat <$> seq 0 (Z.to_nat n).

(** Normalisation of one bound of a slice [l[lo:hi]] over a list of
    length [len]: a negative bound counts from the end, and every bound
    is clamped to [0..len]. *)
Definition slice_bound (len i : Z) : nat :=
  Z.to_nat (if decide (i < 0)%Z then Z.max (i + len) 0 else Z.min i len).

(** [l[lo:hi]]; never raises. *)
Definition slice {A} (l : list A) (lo hi : Z) : list A :=
  let len := Z.of_nat (length l) in
  let a := slice_bound len lo in
  let b := slice_bound len hi in
  take (b - a) (drop a l).

(** ** The batcher *)

(** [def split_list(alist, wanted_parts=1):
       length = len(alist)
       return [ alist[i*length // wanted_parts: (i+1)*length // wanted_parts]
                for i in range(wanted_parts) ]] *)
Definition split_list {A} (alist : list A) (wanted_parts : Z)
  : result (list (list A)) :=
  let length := Z.of_nat (length alist) in
  comprehension
    (λ i, lo ← floordiv (i * length) wanted_parts;
          hi ← floordiv ((i + 1) * length) wanted_parts;
          mret (slice alist lo hi))
    (range wanted_parts).

(** The default [wanted_parts=1]. *)
Definition split_list_default {A} (alist : list A) := split_list alist 1.

(** Sizes of the batches, their largest and their smallest. *)
Definition sizes {A} (bs : list (list A)) : list nat := length <$> bs.

Definition min_list (l : list nat) : nat :=
  match l with
  | [] => 0
  | x :: l' => foldr Nat.min x l'
  end.

(** The cut points [i*length // wanted_parts] of the batcher, and the
    batch between two of them; [split_list] is [batch] mapped over
    [range] whenever no division fails ([split_list_batches]). *)
Definition cut (L P i : Z) : Z := ((i * L) `div` P)%Z.

Definition batch {A} (alist : list A) (P i : Z) : list A :=
  let L := Z.of_nat (length alist) in
  slice alist (cut L P i) (cut L P (i + 1)).

(** ** Strings: [split], [int] *)

(** [s.split(sep)] for a one-character separator: the fields between
    the separators, always at least one. *)
Fixpoint split (sep : ascii) (s : string) : list string :=
  match s with
  | EmptyString => [EmptyString]
  | String c s' =>
      if decide (c = sep) then EmptyString :: split sep s'
      else match split sep s' with
           | [] => [String c EmptyString]
           | w :: ws => String c w :: ws
           end
  end.

(** [l[i]] for a non-negative constant index. *)
Definition index {A} (l : list A) (i : nat) : result A :=
  match l !! i with
  | Some x => Ok x
  | None => Raise IndexError
  end.

(** Whitespace as [str.strip] sees it: space, tab, line feed, vertical
    tab, form feed, carriage return. *)
Definition is_space (c : ascii) : bool :=
  let n := nat_of_ascii c in
  (n =? 32) || ((9 <=? n) && (n <=? 13)).

Definition is_digit (c : ascii) : bool :=
  let n := nat_of_ascii c in (48 <=? n) && (n <=? 57).

Fixpoint lstrip (s : string) : string :=
  match s with
  | EmptyString => EmptyString
  | String c s' => if is_space c then lstrip s' else s
  end.

Fixpoint rstrip (s : string) : string :=
  match s with
  | EmptyString => EmptyString
  | String c s' =>
      match rstrip s' with
      | EmptyString => if is_space c then EmptyString else String c EmptyString
      | r => String c r
      end
  end.

Fixpoint digits (acc : Z) (s : string) : option Z :=
  match s with
  | EmptyString => Some acc
  | String c s' =>
      if is_digit c
      then digits (10 * acc + Z.of_nat (nat_of_ascii c - 48)) s'
      else None
  end.

(** [int(s)] on an ASCII string, base 10: surrounding whitespace is
    dropped, one sign is allowed, and the rest must be one or more
    decimal digits; anything else is a [ValueError]. *)
Definition int (s : string) : result Z :=
  let t := rstrip (lstrip s) in
  let '(sign, body) :=
    match t with
    | String "-" b => ((-1)%Z, b)
    | String "+" b => (1%Z, b)
    | _ => (1%Z, t)
    end in
  match body with
  | EmptyString => Raise ValueError
  | _ => match digits 0 body with
         | Some n => Ok (sign * n)%Z
         | None => Raise ValueError
         end
  end.

(** ** The word-frequency aggregation *)

(** One scanned item of the table, as the scraper writes it:
    [record['link']], [record['sentiment']], [record['words']]. *)
Record item : Type := Item {
  link : string;
  sentiment : string;
  words : list string;
}.

(** [d[k]] on a dict: [KeyError] when the key is missing. *)
Definition getitem {V} (d : gmap string V) (k : string) : result V :=
  match d !! k with
  | Some v => Ok v
  | None => Raise KeyError
  end.

(** [try: body  except ValueError: pass], where the body only changes the
    state [s] by the value it returns. *)
Definition except_ValueError_pass {S} (s : S) (body : result S) : result S :=
  match body with
  | Raise ValueError => Ok s
  | r => r
  end.

(** The body of the inner loop:
    [try:
         if word.split(':')[0] in all_words:
             all_words[word.split(':')[0]] =
                 all_words[word.split(':')[0]] + int(word.split(':')[1])
         else:
             all_words[word.split(':')[0]] = int(word.split(':')[1])
     except ValueError:
         pass]
    The right-hand side of an assignment is evaluated before the
    subscript of its target. *)
Definition count_word (all_words : gmap string Z) (word : string)
  : result (gmap string Z) :=
  except_ValueError_pass all_words
    (k ← index (split ":" word) 0;
     if decide (is_Some (all_words !! k)) then
       k1 ← index (split ":" word) 0;
       old ← getitem all_words k1;
       c ← index (split ":" word) 1;
       n ← int c;
       k2 ← index (split ":" word) 0;
       mret (<[k2 := (old + n)%Z]> all_words)
     else
       c ← index (split ":" word) 1;
       n ← int c;
       k2 ← index (split ":" word) 0;
       mret (<[k2 := n]> all_words)).

(** [for word in item['words']: ...] *)
Definition count_words (all_words : gmap string Z) (it : item)
  : result (gmap string Z) :=
  for_each count_word (words it) all_words.

(** [all_words = {}; for item in db_table['Items']: ...] *)
Definition all_words (items : list item) : result (gmap string Z) :=
  for_each count_words items ∅.

(** What one token does to the mapping. *)
Inductive token_kind : Type :=
  | NoSeparator
  | BadCount
  | Count (k : string) (n : Z).

Definition classify (word : string) : token_kind :=
  match split ":" word with
  | k :: c :: _ =>
      match int c with
      | Ok n => Count k n
      | Raise _ => BadCount
      end
  | _ => NoSeparator
  end.

Definition add_count (k : string) (n : Z) (m : gmap string Z)
  : gmap string Z :=
  <[k := (default 0 (m !! k) + n)%Z]> m.

(** Shapes of a token, in the words of the source: it holds a [':'];
    its field after the first [':'] converts with [int]; that field
    exists and [int] rejects it. *)
Definition has_separator (word : string) : Prop :=
  ":"%char ∈ String.list_ascii_of_string word.

Definition well_formed (word : string) : Prop :=
  ∃ c n, split ":" word !! 1 = Some c ∧ int c = Ok n.

Definition bad_count (word : string) : Prop :=
  ∃ c, split ":" word !! 1 = Some c ∧ int c = Raise ValueError.

#[global] Instance token_kind_eq_dec : EqDecision token_kind.
Proof. solve_decision. Defined.

#[global] Instance has_separator_dec word : Decision (has_separator word).
Proof. unfold has_separator. apply _. Defined.

#[global] Instance well_formed_dec word : Decision (well_formed word).
Proof.
  unfold well_formed. destruct (split ":" word !! 1) as [c|].
  - destruct (int c) as [n|e] eqn:Hc.
    + left. eauto.
    + right. intros (c' & n & [= <-] & Hn). congruence.
  - right. intros (c' & n & [=] & _).
Defined.

(** A record with only its well-formed tokens. *)
Definition keep_well_formed (it : item) : item :=
  {| link := link it; sentiment := sentiment it;
     words := filter well_formed (words it) |}.



(** ** The sentiment projection *)

Section sentiments.
(** Floating-point numbers and the parser behind [float(s)] are left
    abstract: [parse_float s = None] when [s] is no float literal. *)
Context {F : Type} (parse_float : string → option F).

Definition float (s : string) : result F :=
  match parse_float s with
  | Some x => Ok x
  | None => Raise ValueError
  end.

(** [sentiments = []
     for item in db_table['Items']:
         sentiments.append(float(item['sentiment']))] *)
Definition append_sentiment (acc : list F) (it : item) : result (list F) :=
  x ← float (sentiment it); mret (acc ++ [x]).

Definition sentiments (items : list item) : result (list F) :=
  for_each append_sentiment items [].
End sentiments.

(** Sample items, and a stand-in for [float] that reads integer
    literals only. *)
Definition example_items : list item :=
  [Item "l1" "0.5" ["a:3"; "b:x"; "a:1"]; Item "l2" "-0.2" ["b:2"]].

Definition example_parse (s : string) : option Z :=
  match int s with
  | Ok n => Some n
  | Raise _ => None
  end.

(** ** Top-20 selection *)

(** The sort key [lambda (k, v): (-v, k)] and the order of Python on
    such tuples: first components first, then the strings bytewise. *)
Definition sort_key (kv : string * Z) : Z * string := ((- kv.2)%Z, kv.1).

Definition tuple_le (a b : Z * string) : Prop :=
  (a.1 < b.1)%Z ∨ (a.1 = b.1 ∧ String.leb a.2 b.2 = true).

Definition key_le (x y : string * Z) : Prop :=
  tuple_le (sort_key x) (sort_key y).

#[global] Instance key_le_dec x y : Decision (key_le x y).
Proof. unfold key_le, tuple_le. apply _. Defined.

(** [sorted(items, key=...)]: a merge sort, as Python's is. *)
Definition sorted (items : list (string * Z)) : list (string * Z) :=
  merge_sort key_le items.

(** [dict(pairs)]: later pairs overwrite earlier ones. *)
Definition dict (pairs : list (string * Z)) : gmap string Z :=
  foldl (λ m kv, <[kv.1 := kv.2]> m) ∅ pairs.

(** [dict(sorted(all_words.iteritems(), key=lambda (k, v): (-v, k))[:K])]
    where [iteritems] is the sequence in which the dict hands out its
    entries; the notebook has [K = 20]. *)
Definition top_k (K : nat) (iteritems : list (string * Z)) : gmap string Z :=
  dict (take K (sorted iteritems)).

Definition top20 (iteritems : list (string * Z)) : gmap string Z :=
  top_k 20 iteritems.

(** An enumeration of a dict: every entry once, in some order. *)
Definition enumerates (iteritems : list (string * Z)) (m : gmap string Z)
  : Prop :=
  iteritems ≡ₚ map_to_list m.

(** The mapping of the top-K example. *)
Definition example_counts : gmap string Z :=
  {["a" := 4%Z; "b" := 2%Z; "c" := 4%Z]}.

(** ** Filtering and projecting the NDVI results *)

Section series.
(** Field values (date strings, cloud percentages, NDVI floats) are
    left abstract. *)
Context {V : Type}.

(** A result of the remote call: [None] or a dict. *)
Definition record : Type := option (gmap string V).

(** Truth value of a result: [None] and the empty dict are false. *)
Definition truthy (r : record) : bool :=
  match r with
  | None => false
  | Some d => bool_decide (d ≠ ∅)
  end.

(** [filter(None, results)] *)
Definition filter_None (results : list record) : list record :=
  filter (λ r, truthy r = true) results.

(** [field in obs] and [obs[field]]: a [TypeError] when [obs] is
    [None]. *)
Definition contains (obs : record) (field : string) : result bool :=
  match obs with
  | None => Raise TypeError
  | Some d => Ok (bool_decide (is_Some (d !! field)))
  end.

Definition subscript (obs : record) (field : string) : result V :=
  match obs with
  | None => Raise TypeError
  | Some d => getitem d field
  end.

(** [[g(obs[field]) for obs in timeSeries if field in obs]] *)
Definition project {W} (g : V → result W) (field : string)
    (timeSeries : list record) : result (list W) :=
  comprehension_if (λ obs, contains obs field)
                   (λ obs, v ← subscript obs field; g v)
                   timeSeries.

(** [ndviSeries = [obs['ndvi'] for obs in timeSeries if 'ndvi' in obs]] *)
Definition ndviSeries (timeSeries : list record) : result (list V) :=
  project Ok "ndvi" timeSeries.

(** [cloudSeries = [obs['cloud']/100 for obs in timeSeries
                   if 'cloud' in obs]], over an abstract division. *)
Definition cloudSeries (div100 : V → result V) (timeSeries : list record)
  : result (list V) :=
  project div100 "cloud" timeSeries.

(** The value a record contributes to the series of a field, if any. *)
Definition field_of (field : string) (r : record) : option V :=
  match r with
  | Some d => d !! field
  | None => None
  end.

(** Present records, and present records that carry a field. *)
Definition present (r : record) : Prop := is_Some r.

Definition carries (field : string) (r : record) : Prop :=
  ∃ d, r = Some d ∧ is_Some (d !! field).

#[global] Instance carries_dec field r : Decision (carries field r).
Proof.
  unfold carries. destruct r as [d|].
  - destruct (decide (is_Some (d !! field))) as [Hd|Hd].
    + left. eauto.
    + right. intros (d' & [= <-] & ?). done.
  - right. intros (d' & [=] & ?).
Defined.

Definition count_present (results : list record) : nat :=
  length (filter present results).

Definition count_carrying (field : string) (results : list record) : nat :=
  length (filter (carries field) results).
End series.

(** [timeStamps = [datetime.datetime.strptime(obs['date'],'%Y-%m-%d')
                   for obs in timeSeries if 'date' in obs]], over an
    abstract date parser. *)
Definition timeStamps {V T} (strptime : V → result T)
    (timeSeries : list (@record V)) : result (list T) :=
  project strptime "date" timeSeries.

(** Sample results with all three fields: one failed, one succeeded, one
    came back empty. *)
Definition example_scene_results : list (@record Z) :=
  [None;
   Some {["date" := 20170829%Z; "ndvi" := 7%Z; "cloud" := 12%Z]};
   Some ∅].

(** Sample results of the remote call: one failed, two succeeded. *)
Definition example_results : list (@record Z) :=
  [None; Some {["ndvi" := 7%Z; "cloud" := 12%Z]}; Some {["ndvi" := 5%Z]}].

(** ** String slices, negative indices, string concatenation *)

(** [len(s)] and [s[lo:hi]] on a string. *)
Definition len (s : string) : Z := Z.of_nat (String.length s).

Definition str_slice (s : string) (lo hi : Z) : string :=
  String.string_of_list_ascii (slice (String.list_ascii_of_string s) lo hi).

(** [l[i]] for any integer index: a negative index counts from the end,
    and an index outside the list is an [IndexError]. *)
Definition index_Z {A} (l : list A) (i : Z) : result A :=
  let n := Z.of_nat (length l) in
  let j := if decide (i < 0)%Z then (i + n)%Z else i in
  if decide (0 ≤ j < n)%Z then index l (Z.to_nat j) else Raise IndexError.

(** Concatenation of a list of strings, left to right. *)
Definition concat_str (l : list string) : string :=
  foldr String.append EmptyString l.

(** The step [acc.append(f(x))] of a loop that collects one converted
    element per input. *)
Definition append_result {X Y} (f : X → result Y) (acc : list Y) (x : X)
  : result (list Y) :=
  y ← f x; mret (acc ++ [y]).

(** ** The scene list of the NDVI notebook *)

(** One of the three steps
    [if scene[-2:] == old: scene = scene[:-2] + new]. *)
Definition replace_version (old new scene : string) : string :=
  if decide (str_slice scene (-2) (len scene) = old)
  then str_slice scene 0 (-2) +:+ new
  else scene.

(** [if scene[-2:] == '01': scene = scene[:-2] + '00'
     if scene[-2:] == '02': scene = scene[:-2] + '00'
     if scene[-2:] == '03': scene = scene[:-2] + '02'] *)
Definition fix_version (scene : string) : string :=
  let scene := replace_version "01" "00" scene in
  let scene := replace_version "02" "00" scene in
  replace_version "03" "02" scene.

(** The body of the loop of [getSceneList]:
    [scene = str(record['aws_index'].split('/')[-2])] followed by the
    three steps above. *)
Definition scene_of (record : gmap string string) : result string :=
  aws_index ← getitem record "aws_index";
  scene ← index_Z (split "/" aws_index) (-2);
  mret (fix_version scene).

(** [getSceneList], from the parsed answer [sceneMetaData["results"]] of
    the metadata service on:
    [scenes = []
     for record in sceneMetaData["results"]:
         ...
         scenes.append(scene)
     return scenes] *)
Definition getSceneList (results : list (gmap string string))
  : result (list string) :=
  for_each (append_result scene_of) results [].

(** ** The index page of the tag clouds *)

(** The double quote character, which the HTML literals contain. *)
Definition dq : string := String "034"%char EmptyString.

(** [links = []
     for item in db_table['Items']:
         links.append(item['link'])] *)
Definition links_of (items : list item) : list string :=
  foldl (λ links it, links ++ [link it]) [] items.

Section tagcloud_index.
(** [hashlib.md5(link).hexdigest()] and the bucket name are parameters. *)
Context (md5_hexdigest : string → string) (S3BUCKET : string).

(** [url = 'https://s3-us-west-2.amazonaws.com/' + S3BUCKET
          + '/tagclouds/' + h + '.jpg'] *)
Definition tagcloud_url (link : string) : string :=
  "https://s3-us-west-2.amazonaws.com/" +:+ S3BUCKET +:+ "/tagclouds/"
  +:+ md5_hexdigest link +:+ ".jpg".

(** The cell appended for one link: an anchor on the link around the
    image at [url], with [target=_blank] and [width=300], every
    attribute value between double quotes. *)
Definition tagcloud_cell (link : string) : string :=
  "<td><a href=" +:+ dq +:+ link +:+ dq +:+ " target=" +:+ dq +:+ "_blank"
  +:+ dq +:+ "><img width=" +:+ dq +:+ "300" +:+ dq +:+ " src=" +:+ dq
  +:+ tagcloud_url link +:+ dq +:+ "/></a></td>".

(** The body of the loop, on the pair of [output] and the counter [i]:
    [output += cell
     if i % 5 == 0:
         output += '</tr><tr>'
     i += 1] *)
Definition index_step (st : string * Z) (link : string) : string * Z :=
  let output := st.1 +:+ tagcloud_cell link in
  let output :=
    if decide (st.2 `mod` 5 = 0)%Z then output +:+ "</tr><tr>" else output in
  (output, (st.2 + 1)%Z).

(** [output = '<!DOCTYPE html><html><body><table><tr>'
     i = 1
     for link in links: ...
     output += '</tr></table></body></html>'] *)
Definition tagcloud_index (links : list string) : string :=
  (foldl index_step ("<!DOCTYPE html><html><body><table><tr>", 1%Z) links).1
  +:+ "</tr></table></body></html>".

(** A closed row of the table: its cells and the row break. *)
Definition row_html (row : list string) : string :=
  concat_str (tagcloud_cell <$> row) +:+ "</tr><tr>".
End tagcloud_index.

(** ** Counts per token of the aggregation *)

(** The count a token adds under the key [k], if it adds one. *)
Definition count_for (k : string) (word : string) : option Z :=
  match split ":" word with
  | k' :: c :: _ =>
      if decide (k' = k)
      then match int c with
           | Ok n => Some n
           | Raise _ => None
           end
      else None
  | _ => None
  end.

Definition sum_Z (l : list Z) : Z := foldr Z.add 0%Z l.

(** The total a list of tokens adds under [k]: nothing when no token
    counts for [k]. *)
Definition tally (k : string) (ws : list string) : option Z :=
  match omap (count_for k) ws with
  | [] => None
  | ns => Some (sum_Z ns)
  end.

(** ** Facts about the primitives *)

Section comprehension_facts.
Context {X Y : Type}.

Lemma comprehension_ok (f : X → result Y) (g : X → Y) (l : list X) :
  (∀ x, x ∈ l → f x = Ok (g x)) →
  comprehension f l = Ok (g <$> l).
Proof.
  induction l as [|x l IH]; intros Hf; [done|].
  cbn. rewrite Hf by left. cbn.
  rewrite IH; [done|]. intros y Hy. apply Hf. by right.
Qed.
End comprehension_facts.

Lemma elem_of_range (n i : Z) : i ∈ range n ↔ (0 ≤ i < n)%Z.
Proof.
  unfold range. rewrite list_elem_of_fmap. split.
  - intros (k & -> & Hk). apply elem_of_seq in Hk. lia.
  - intros Hi. exists (Z.to_nat i). split; [lia|]. apply elem_of_seq. lia.
Qed.

Lemma range_nonpos (n : Z) : (n ≤ 0)%Z → range n = [].
Proof. intros Hn. unfold range. by replace (Z.to_nat n) with 0 by lia. Qed.

Lemma length_range (n : Z) : length (range n) = Z.to_nat n.
Proof. unfold range. by rewrite length_fmap, length_seq. Qed.

Lemma floordiv_ok (a b : Z) : (b ≠ 0)%Z → floordiv a b = Ok (a `div` b)%Z.
Proof. intros Hb. unfold floordiv. by rewrite decide_False. Qed.

Lemma slice_in_range {A} (l : list A) (lo hi : Z) :
  (0 ≤ lo ≤ hi)%Z → (hi ≤ Z.of_nat (length l))%Z →
  slice l lo hi = take (Z.to_nat hi - Z.to_nat lo) (drop (Z.to_nat lo) l).
Proof.
  intros Hlo Hhi. unfold slice, slice_bound.
  rewrite !decide_False by lia. by rewrite !Z.min_l by lia.
Qed.

Lemma cut_0 L P : cut L P 0 = 0%Z.
Proof. unfold cut. by rewrite Z.mul_0_l, Zdiv_0_l. Qed.

Lemma cut_last L P : (1 ≤ P)%Z → cut L P P = L.
Proof. intros HP. unfold cut. rewrite Z.mul_comm, Z.div_mul; lia. Qed.

Lemma cut_mono L P i j :
  (1 ≤ P)%Z → (0 ≤ L)%Z → (i ≤ j)%Z → (cut L P i ≤ cut L P j)%Z.
Proof. intros HP HL Hij. unfold cut. apply Z.div_le_mono; nia. Qed.

Lemma cut_nonneg L P i :
  (1 ≤ P)%Z → (0 ≤ L)%Z → (0 ≤ i)%Z → (0 ≤ cut L P i)%Z.
Proof. intros HP HL Hi. unfold cut. apply Z.div_pos; nia. Qed.

Lemma cut_le_len L P i :
  (1 ≤ P)%Z → (0 ≤ L)%Z → (i ≤ P)%Z → (cut L P i ≤ L)%Z.
Proof.
  intros HP HL Hi. rewrite <-(cut_last L P HP) at 2. by apply cut_mono.
Qed.

(** Width of a batch: the floor or the ceiling of [L/P]. *)
Lemma cut_width L P i :
  (1 ≤ P)%Z → (0 ≤ L)%Z → (0 ≤ i)%Z →
  (L `div` P ≤ cut L P (i + 1) - cut L P i ≤ L `div` P + 1)%Z.
Proof.
  intros HP HL Hi. unfold cut.
  replace ((i + 1) * L)%Z with (i * L + L)%Z by lia.
  assert (0 ≤ i * L)%Z by nia.
  generalize dependent (i * L)%Z. intros a Ha.
  pose proof (Z.div_mod a P ltac:(lia)) as Ea.
  pose proof (Z.div_mod L P ltac:(lia)) as EL.
  pose proof (Z.mod_pos_bound a P ltac:(lia)) as Ba.
  pose proof (Z.mod_pos_bound L P ltac:(lia)) as BL.
  replace (a + L)%Z
    with ((a `div` P + L `div` P) * P + (a `mod` P + L `mod` P))%Z by lia.
  rewrite Z.div_add_l by lia.
  assert (0 ≤ (a `mod` P + L `mod` P) `div` P ≤ 1)%Z; [|lia].
  split; [apply Z.div_pos; lia|].
  apply Z.lt_succ_r, Z.div_lt_upper_bound; lia.
Qed.

Lemma split_list_batches {A} (alist : list A) (P : Z) :
  (1 ≤ P)%Z → split_list alist P = Ok (batch alist P <$> range P).
Proof.
  intros HP. unfold split_list. apply comprehension_ok.
  intros i _. rewrite !floordiv_ok by lia. done.
Qed.

Lemma batch_take_drop {A} (alist : list A) (P i : Z) :
  (1 ≤ P)%Z → (0 ≤ i < P)%Z →
  let L := Z.of_nat (length alist) in
  batch alist P i =
    take (Z.to_nat (cut L P (i + 1)) - Z.to_nat (cut L P i))
         (drop (Z.to_nat (cut L P i)) alist).
Proof.
  intros HP Hi L. unfold batch. apply slice_in_range.
  - split; [apply cut_nonneg; lia|apply cut_mono; lia].
  - apply cut_le_len; lia.
Qed.

Lemma length_batch {A} (alist : list A) (P i : Z) :
  (1 ≤ P)%Z → (0 ≤ i < P)%Z →
  let L := Z.of_nat (length alist) in
  Z.of_nat (length (batch alist P i)) = (cut L P (i + 1) - cut L P i)%Z.
Proof.
  intros HP Hi L. rewrite batch_take_drop by done.
  rewrite length_take, length_drop. fold L.
  pose proof (cut_nonneg L P i ltac:(lia) ltac:(lia) ltac:(lia)).
  pose proof (cut_mono L P i (i + 1) ltac:(lia) ltac:(lia) ltac:(lia)).
  pose proof (cut_le_len L P (i + 1) ltac:(lia) ltac:(lia) ltac:(lia)).
  lia.
Qed.

(** Concatenating the first [n] batches gives the prefix up to the
    [n]-th cut point. *)
Lemma concat_batches_prefix {A} (alist : list A) (P : Z) (n : nat) :
  (1 ≤ P)%Z → (Z.of_nat n ≤ P)%Z →
  concat (batch alist P <$> (Z.of_nat <$> seq 0 n)) =
    take (Z.to_nat (cut (Z.of_nat (length alist)) P (Z.of_nat n))) alist.
Proof.
  intros HP. induction n as [|n IH]; intros Hn.
  - cbn. by rewrite cut_0.
  - rewrite seq_S, !fmap_app, concat_app, IH by lia. cbn.
    rewrite app_nil_r, batch_take_drop by lia. cbn zeta.
    set (L := Z.of_nat (length alist)).
    replace (Z.of_nat (S n)) with (Z.of_nat n + 1)%Z by lia.
    pose proof (cut_nonneg L P (Z.of_nat n) ltac:(lia) ltac:(lia) ltac:(lia)).
    pose proof (cut_mono L P (Z.of_nat n) (Z.of_nat n + 1)
                  ltac:(lia) ltac:(lia) ltac:(lia)).
    rewrite take_take_drop. f_equal. lia.
Qed.

Lemma concat_batches {A} (alist : list A) (P : Z) :
  (1 ≤ P)%Z → concat (batch alist P <$> range P) = alist.
Proof.
  intros HP. unfold range. rewrite concat_batches_prefix by lia.
  rewrite Z2Nat.id, cut_last by lia. rewrite Nat2Z.id.
  by rewrite firstn_all.
Qed.

(** Every batch has the floor or the ceiling of [L/P] elements. *)
Lemma batch_size_bounds {A} (alist : list A) (P i : Z) :
  (1 ≤ P)%Z → (0 ≤ i < P)%Z →
  let q := Z.to_nat (Z.of_nat (length alist) `div` P) in
  q ≤ length (batch alist P i) ≤ q + 1.
Proof.
  intros HP Hi q. subst q.
  pose proof (length_batch alist P i HP Hi) as Hlen. cbn zeta in Hlen.
  pose proof (cut_width (Z.of_nat (length alist)) P i
                ltac:(lia) ltac:(lia) ltac:(lia)) as Hw.
  assert (0 ≤ Z.of_nat (length alist) `div` P)%Z by (apply Z.div_pos; lia).
  lia.
Qed.

Lemma max_list_bounded (l : list nat) (b : nat) :
  Forall (λ n, n ≤ b) l → max_list l ≤ b.
Proof. induction 1; cbn; lia. Qed.

Lemma min_list_bounded (l : list nat) (b : nat) :
  l ≠ [] → Forall (λ n, b ≤ n) l → b ≤ min_list l.
Proof.
  destruct l as [|x l]; [done|]. intros _ Hl.
  apply Forall_cons in Hl as [Hx Hl]. cbn.
  induction Hl; cbn; lia.
Qed.

Lemma min_list_le_max_list (l : list nat) : min_list l ≤ max_list l.
Proof.
  destruct l as [|x l]; [done|]. cbn.
  induction l as [|y l IH]; cbn in *; lia.
Qed.

(** ** The claims about the batcher *)

(** C1. For every list and every partition count [P >= 1], [split_list]
    returns (without raising) exactly [P] sub-lists, each a contiguous
    segment of the input, whose concatenation in order is the input list
    itself: nothing is reordered, lost or duplicated. *)
Theorem split_list_concat {A} (alist : list A) (P : Z) :
  (1 ≤ P)%Z →
  ∃ bs, split_list alist P = Ok bs
        ∧ Z.of_nat (length bs) = P
        ∧ Forall (λ b, ∃ lo n, b = take n (drop lo alist)) bs
        ∧ concat bs = alist.
Proof.
  intros HP. exists (batch alist P <$> range P).
  split; [by apply split_list_batches|].
  split; [rewrite length_fmap, length_range; lia|].
  split; [|by apply concat_batches].
  apply Forall_fmap, Forall_forall. intros i Hi%elem_of_range. cbn.
  eexists _, _. by apply batch_take_drop.
Qed.

Lemma split_list_concat_witness :
  ∃ bs, split_list [10; 20; 30; 40; 50; 60; 70] 3 = Ok bs
        ∧ Z.of_nat (length bs) = 3%Z
        ∧ Forall (λ b, ∃ lo n, b = take n (drop lo [10; 20; 30; 40; 50; 60; 70]))
                 bs
        ∧ concat bs = [10; 20; 30; 40; 50; 60; 70].
Proof. apply (split_list_concat [10; 20; 30; 40; 50; 60; 70] 3). lia. Defined.

(** C3, as the code has it. Batching the five items [u1..u5] into two
    parts cuts at [1*5 // 2 = 2]: the batches are [u1,u2] and
    [u3,u4,u5], in that order. *)
Theorem split_list_five_two {A} (u1 u2 u3 u4 u5 : A) :
  split_list [u1; u2; u3; u4; u5] 2 = Ok [[u1; u2]; [u3; u4; u5]].
Proof. reflexivity. Qed.

(** C3, as the claim states it, fails: the first batch is not
    [u1,u2,u3]. *)
Lemma split_list_five_two_not_3_2 :
  split_list ["u1"; "u2"; "u3"; "u4"; "u5"] 2
    ≠ Ok [["u1"; "u2"; "u3"]; ["u4"; "u5"]].
Proof. intros H. vm_compute in H. discriminate H. Qed.

(** C4. For every list of length [L] and every [P >= 1], [split_list]
    returns exactly [P] batches, which together are the input list, and
    whose sizes differ by at most one: the largest size minus the
    smallest is at most 1. When [L < P] the call still returns, and some
    batch is empty. *)
Theorem split_list_balanced {A} (alist : list A) (P : Z) :
  (1 ≤ P)%Z →
  ∃ bs, split_list alist P = Ok bs
        ∧ Z.of_nat (length bs) = P
        ∧ concat bs = alist
        ∧ (Z.of_nat (max_list (sizes bs)) - Z.of_nat (min_list (sizes bs)) ≤ 1)%Z
        ∧ (∀ b1 b2, b1 ∈ bs → b2 ∈ bs → length b1 ≤ length b2 + 1)
        ∧ ((Z.of_nat (length alist) < P)%Z → [] ∈ bs).
Proof.
  intros HP. exists (batch alist P <$> range P).
  split; [by apply split_list_batches|].
  split; [rewrite length_fmap, length_range; lia|].
  split; [by apply concat_batches|].
  set (q := Z.to_nat (Z.of_nat (length alist) `div` P)).
  assert (Hall : Forall (λ n, q ≤ n ≤ q + 1) (sizes (batch alist P <$> range P))).
  { unfold sizes. apply Forall_fmap, Forall_fmap, Forall_forall.
    intros i Hi%elem_of_range. cbn. by apply batch_size_bounds. }
  assert (Hne : sizes (batch alist P <$> range P) ≠ []).
  { intros Hnil%(f_equal length). unfold sizes in Hnil.
    rewrite !length_fmap, length_range in Hnil. cbn in Hnil. lia. }
  split; [|split].
  - pose proof (max_list_bounded _ (q + 1)
                  (Forall_impl _ _ _ Hall (λ n Hn, proj2 Hn))).
    pose proof (min_list_bounded _ q Hne
                  (Forall_impl _ _ _ Hall (λ n Hn, proj1 Hn))).
    lia.
  - intros b1 b2 (i1 & -> & Hi1%elem_of_range)%list_elem_of_fmap
                 (i2 & -> & Hi2%elem_of_range)%list_elem_of_fmap.
    pose proof (batch_size_bounds alist P i1 HP Hi1).
    pose proof (batch_size_bounds alist P i2 HP Hi2). cbn zeta in *. lia.
  - intros Hlt. apply list_elem_of_fmap. exists 0%Z.
    split; [|apply elem_of_range; lia].
    symmetry. apply length_zero_iff_nil.
    pose proof (batch_size_bounds alist P 0 HP ltac:(lia)) as Hb.
    cbn zeta in Hb. rewrite Z.div_small in Hb by lia.
    pose proof (length_batch alist P 0 HP ltac:(lia)) as Hlen.
    cbn zeta in Hlen. rewrite cut_0 in Hlen. unfold cut in Hlen.
    rewrite Z.mul_1_l, Z.div_small in Hlen by lia. lia.
Qed.

Lemma split_list_balanced_witness :
  ∃ bs, split_list ["u1"; "u2"] 5 = Ok bs
        ∧ Z.of_nat (length bs) = 5%Z
        ∧ concat bs = ["u1"; "u2"]
        ∧ (Z.of_nat (max_list (sizes bs)) - Z.of_nat (min_list (sizes bs)) ≤ 1)%Z
        ∧ (∀ b1 b2, b1 ∈ bs → b2 ∈ bs → length b1 ≤ length b2 + 1)
        ∧ ((Z.of_nat (length ["u1"; "u2"]) < 5)%Z → [] ∈ bs).
Proof. apply (split_list_balanced ["u1"; "u2"] 5). lia. Defined.

(** C8. Batching is deterministic: two runs of [split_list] on the same
    list and the same partition count give the same outcome, hence
    identical partitions. *)
Theorem split_list_deterministic {A} (alist : list A) (P : Z)
    (run1 run2 : result (list (list A))) :
  split_list alist P = run1 → split_list alist P = run2 → run1 = run2.
Proof. intros <- <-. reflexivity. Qed.

Lemma split_list_deterministic_witness :
  Ok [["u1"; "u2"]; ["u3"; "u4"; "u5"]] = Ok [["u1"; "u2"]; ["u3"; "u4"; "u5"]]
  :> result (list (list string)).
Proof.
  apply (split_list_deterministic ["u1"; "u2"; "u3"; "u4"; "u5"] 2);
    reflexivity.
Defined.

(** C9. Outside the precondition, for [wanted_parts <= 0], [split_list]
    still returns: [range] is empty, no division is evaluated, and the
    result is the empty list of batches. Its concatenation is then not
    the input as soon as the input is non-empty. *)
Theorem split_list_nonpositive {A} (alist : list A) (P : Z) :
  (P ≤ 0)%Z →
  split_list alist P = Ok []
  ∧ (alist ≠ [] → ∀ bs, split_list alist P = Ok bs → concat bs ≠ alist).
Proof.
  intros HP.
  assert (Hnil : split_list alist P = Ok []).
  { unfold split_list. by rewrite range_nonpos. }
  split; [done|].
  intros Hne bs Hbs. rewrite Hnil in Hbs. injection Hbs as <-. cbn. done.
Qed.

Lemma split_list_nonpositive_witness :
  split_list ["u1"; "u2"; "u3"] 0 = Ok []
  ∧ (["u1"; "u2"; "u3"] ≠ [] →
     ∀ bs, split_list ["u1"; "u2"; "u3"] 0 = Ok bs →
           concat bs ≠ ["u1"; "u2"; "u3"]).
Proof. apply (split_list_nonpositive ["u1"; "u2"; "u3"] 0). lia. Defined.

(** ** Facts about the aggregation loop *)


Lemma for_each_cons {S X} (f : S → X → result S) (x : X) (l : list X)
    (acc : S) :
  for_each f (x :: l) acc = f acc x ≫= for_each f l.
Proof. reflexivity. Qed.

Lemma for_each_app {S X} (f : S → X → result S) (l1 l2 : list X) (acc : S) :
  for_each f (l1 ++ l2) acc = for_each f l1 acc ≫= for_each f l2.
Proof.
  revert acc. induction l1 as [|x l1 IH]; intros acc; [done|].
  cbn. destruct (f acc x); cbn; [apply IH|done].
Qed.

Lemma split_not_nil (sep : ascii) (s : string) : split sep s ≠ [].
Proof.
  destruct s as [|c s]; cbn; [done|].
  destruct (decide (c = sep)); [done|]. by destruct (split sep s).
Qed.

Lemma split_fields_separator (word : string) :
  1 < length (split ":" word) ↔ has_separator word.
Proof.
  unfold has_separator. induction word as [|c w IH]; cbn.
  - rewrite elem_of_nil. lia.
  - rewrite elem_of_cons. destruct (decide (c = ":"%char)) as [->|Hc]; cbn.
    + pose proof (split_not_nil ":" w).
      destruct (split ":" w); [done|]. cbn. split; [auto|lia].
    + pose proof (split_not_nil ":" w).
      destruct (split ":" w) as [|w0 ws]; [done|]. cbn in *.
      rewrite IH. split; [auto|]. intros [Heq|]; [congruence|done].
Qed.

Lemma int_raises (s : string) (e : exn) : int s = Raise e → e = ValueError.
Proof.
  unfold int.
  destruct (match rstrip (lstrip s) with
            | String "-" b => ((-1)%Z, b)
            | String "+" b => (1%Z, b)
            | _ => (1%Z, rstrip (lstrip s))
            end) as [sign body].
  destruct body; [congruence|]. destruct (digits _ _); congruence.
Qed.

Lemma classify_no_separator (word : string) :
  classify word = NoSeparator ↔ ¬ has_separator word.
Proof.
  rewrite <-split_fields_separator. unfold classify.
  destruct (split ":" word) as [|k [|c rest]]; cbn; [split; [lia|done]..|].
  destruct (int c); split; (done || lia).
Qed.

Lemma classify_bad_count (word : string) :
  classify word = BadCount ↔ bad_count word.
Proof.
  unfold classify, bad_count.
  destruct (split ":" word) as [|k [|c rest]]; cbn;
    [split; [done|by intros (? & [=] & _)]..|].
  destruct (int c) as [n|e] eqn:Hc.
  - split; [done|]. intros (c' & [= <-] & ?). congruence.
  - apply int_raises in Hc as Hv. subst e. split; [eauto|done].
Qed.

Lemma classify_well_formed (word : string) :
  (∃ k n, classify word = Count k n) ↔ well_formed word.
Proof.
  unfold classify, well_formed.
  destruct (split ":" word) as [|k [|c rest]]; cbn;
    [split; [by intros (? & ? & [=])|by intros (? & ? & [=] & _)]..|].
  destruct (int c) as [n|e] eqn:Hc.
  - split; eauto.
  - split; [by intros (? & ? & [=])|]. intros (c' & n & [= <-] & ?). congruence.
Qed.

(** The body of the inner loop, by the shape of its token. *)
Lemma count_word_classify (m : gmap string Z) (word : string) :
  count_word m word =
    match classify word with
    | NoSeparator => Raise IndexError
    | BadCount => Ok m
    | Count k n => Ok (add_count k n m)
    end.
Proof.
  unfold count_word, classify, add_count.
  destruct (split ":" word) as [|k [|c rest]]; cbn; [done| |].
  - destruct (decide (is_Some (m !! k))) as [[old Hold]|]; [|done].
    unfold getitem. by rewrite Hold.
  - destruct (decide (is_Some (m !! k))) as [[old Hold]|Hnone]; cbn.
    + unfold getitem. rewrite Hold. cbn.
      destruct (int c) as [n|e] eqn:Hc; cbn; [by rewrite Hold|].
      apply int_raises in Hc. by subst e.
    + apply eq_None_not_Some in Hnone.
      destruct (int c) as [n|e] eqn:Hc; cbn; [by rewrite Hnone|].
      apply int_raises in Hc. by subst e.
Qed.




(** The nested loop is the inner loop over all tokens in sequence. *)
Lemma for_each_count_words_flat (items : list item) (m : gmap string Z) :
  for_each count_words items m
  = for_each count_word (concat (words <$> items)) m.
Proof.
  revert m. induction items as [|it items IH]; intros m; [done|].
  cbn. rewrite for_each_app. change (count_words m it) with
    (for_each count_word (words it) m).
  destruct (for_each count_word (words it) m); cbn; [apply IH|done].
Qed.



(** Tokens with a separator never raise; those with a bad count leave
    the mapping as it is. *)
Lemma for_each_count_word_skips (ws : list string) (m : gmap string Z) :
  Forall has_separator ws →
  ∃ m', for_each count_word ws m = Ok m'
        ∧ for_each count_word (filter well_formed ws) m = Ok m'.
Proof.
  intros Hws. revert m. induction Hws as [|w ws Hw _ IH]; intros m.
  - by exists m.
  - rewrite filter_cons. cbn [for_each]. rewrite count_word_classify.
    destruct (classify w) as [| |k n] eqn:Hcl.
    + by apply classify_no_separator in Hcl.
    + rewrite decide_False; [apply IH|].
      intros (k & n & Hkn)%classify_well_formed. congruence.
    + rewrite decide_True by (apply classify_well_formed; eauto).
      cbn. rewrite count_word_classify, Hcl. cbn. apply IH.
Qed.

(** ** Facts about the sentiment projection *)

Section sentiments_facts.
Context {F : Type} (parse_float : string → option F).

Lemma append_sentiment_eq (acc : list F) (it : item) :
  append_sentiment parse_float acc it =
    match parse_float (sentiment it) with
    | Some x => Ok (acc ++ [x])
    | None => Raise ValueError
    end.
Proof. unfold append_sentiment, float. by destruct (parse_float _). Qed.

Lemma sentiments_loop_raise (items : list item) (acc : list F) :
  Exists (λ it, parse_float (sentiment it) = None) items →
  for_each (append_sentiment parse_float) items acc = Raise ValueError.
Proof.
  intros Hex. revert acc.
  induction items as [|it items IH]; intros acc; [by inversion Hex|].
  rewrite for_each_cons, append_sentiment_eq.
  destruct (parse_float (sentiment it)) as [x|] eqn:Hx; cbn; [|done].
  apply IH. inversion Hex; subst; [congruence|done].
Qed.

Lemma sentiments_loop_ok (items : list item) (acc : list F) :
  Forall (λ it, is_Some (parse_float (sentiment it))) items →
  ∃ xs, for_each (append_sentiment parse_float) items acc = Ok (acc ++ xs)
        ∧ length xs = length items.
Proof.
  intros Hall. revert acc.
  induction Hall as [|it items [x Hx] _ IH]; intros acc.
  - exists []. by rewrite app_nil_r.
  - rewrite for_each_cons, append_sentiment_eq, Hx. cbn.
    destruct (IH (acc ++ [x])) as (xs & -> & Hlen).
    exists (x :: xs). rewrite <-(assoc_L (++)). cbn. by rewrite Hlen.
Qed.
End sentiments_facts.

(** ** The claims about the aggregation *)

(** C2, as the code has it. In the word-frequency aggregation a token
    that has a field after its first [':'] which [int] rejects is skipped
    silently: the mapping is left as it was. Over records in which every
    token holds a [':'] the aggregation does not raise, and it is the
    aggregation of the well-formed tokens alone. The sentiment projection
    skips nothing: one record whose sentiment field is no float literal
    makes it raise [ValueError]. *)
Theorem aggregation_skips_bad_counts {F} (parse_float : string → option F)
    (m : gmap string Z) (word : string) (items items' : list item) :
  bad_count word →
  Forall (λ it, Forall has_separator (words it)) items →
  Exists (λ it, parse_float (sentiment it) = None) items' →
  count_word m word = Ok m
  ∧ (∃ m', all_words items = Ok m'
           ∧ all_words (keep_well_formed <$> items) = Ok m')
  ∧ sentiments parse_float items' = Raise ValueError.
Proof.
  intros Hbad Hsep Hfloat. split; [|split].
  - apply classify_bad_count in Hbad.
    by rewrite count_word_classify, Hbad.
  - unfold all_words. rewrite !for_each_count_words_flat.
    destruct (for_each_count_word_skips (concat (words <$> items)) ∅)
      as (m' & Hm' & Hfiltered).
    { apply Forall_concat, Forall_fmap.
      eapply Forall_impl; [exact Hsep|]. by intros it Hit. }
    exists m'. split; [done|]. rewrite <-Hfiltered. f_equal.
    clear. induction items as [|it items IH]; cbn; [done|].
    by rewrite filter_app, IH.
  - by apply sentiments_loop_raise.
Qed.

Lemma aggregation_skips_bad_counts_witness :
  count_word {["a" := 3%Z]} "b:x" = Ok {["a" := 3%Z]}
  ∧ (∃ m', all_words example_items = Ok m'
           ∧ all_words (keep_well_formed <$> example_items) = Ok m')
  ∧ sentiments example_parse [Item "l1" "5" []; Item "l2" "n/a" []]
    = Raise ValueError.
Proof.
  apply (aggregation_skips_bad_counts example_parse {["a" := 3%Z]} "b:x"
           example_items [Item "l1" "5" []; Item "l2" "n/a" []]).
  - exists "x". split; reflexivity.
  - repeat constructor; apply (bool_decide_unpack _); vm_compute; exact I.
  - apply Exists_cons_tl, Exists_cons_hd. reflexivity.
Defined.

(** C2, as the claim states it, fails: a token without any [':'] is not
    skipped; [word.split(':')[1]] raises [IndexError], which the handler
    does not catch, and the aggregation stops there. *)
Lemma all_words_no_separator_raises :
  all_words [Item "l1" "0.5" ["a:3"; "nocolon"; "b:2"]] = Raise IndexError.
Proof. vm_compute. reflexivity. Qed.

(** C6. Aggregating the token list ["a:3", "b:2", "a:1"] yields exactly
    the mapping {a: 4, b: 2}, whether the tokens sit in one record or are
    spread over several: counts are summed over all occurrences. *)
Theorem all_words_a3_b2_a1 (l1 s1 l2 s2 : string) :
  all_words [Item l1 s1 ["a:3"; "b:2"; "a:1"]]
    = Ok {["a" := 4%Z; "b" := 2%Z]}
  ∧ all_words [Item l1 s1 ["a:3"; "b:2"]; Item l2 s2 ["a:1"]]
    = Ok {["a" := 4%Z; "b" := 2%Z]}.
Proof. split; vm_compute; reflexivity. Qed.



(** ** The order of the sort keys *)

Lemma string_leb_trans (s1 s2 s3 : string) :
  String.leb s1 s2 = true → String.leb s2 s3 = true → String.leb s1 s3 = true.
Proof.
  unfold String.leb. revert s2 s3.
  induction s1 as [|a s1 IH]; intros [|b s2] [|c s3]; cbn; try done.
  unfold Ascii.compare.
  destruct (N.compare_spec (N_of_ascii a) (N_of_ascii b)),
           (N.compare_spec (N_of_ascii b) (N_of_ascii c)),
           (N.compare_spec (N_of_ascii a) (N_of_ascii c));
    intros; try done; try (exfalso; lia); eauto.
Qed.

Lemma string_leb_ne_ltb (s1 s2 : string) :
  String.leb s1 s2 = true → s1 ≠ s2 → String.ltb s1 s2 = true.
Proof.
  unfold String.leb, String.ltb. intros Hle Hne.
  destruct (String.compare s1 s2) eqn:Hcmp; [|done..].
  by apply String.compare_eq_iff in Hcmp.
Qed.

#[global] Instance key_le_total : Total key_le.
Proof.
  intros [k1 v1] [k2 v2]. unfold key_le, tuple_le, sort_key. cbn.
  destruct (Z.lt_trichotomy (- v1) (- v2)) as [?|[?|?]]; [auto| |auto].
  destruct (String.leb_total k1 k2); [left|right]; right; split; (done || lia).
Qed.

#[global] Instance key_le_trans : Transitive key_le.
Proof.
  intros [k1 v1] [k2 v2] [k3 v3]. unfold key_le, tuple_le, sort_key. cbn.
  intros [?|[? H12]] [?|[? H23]]; [left; lia..|].
  right. split; [lia|]. by eapply string_leb_trans.
Qed.

#[global] Instance key_le_antisymm : AntiSymm (=) key_le.
Proof.
  intros [k1 v1] [k2 v2]. unfold key_le, tuple_le, sort_key. cbn.
  intros [?|[? H12]] [?|[? H21]]; try lia.
  f_equal; [by apply String.leb_antisym|lia].
Qed.

Lemma StronglySorted_lookup_lt {A} (R : relation A) (l : list A)
    (i j : nat) (x y : A) :
  StronglySorted R l → i < j → l !! i = Some x → l !! j = Some y → R x y.
Proof.
  intros Hl. revert i j. induction Hl as [|z l _ IH Hz]; intros i j Hij Hi Hj.
  - done.
  - destruct j as [|j]; [lia|]. cbn in Hj. destruct i as [|i]; cbn in Hi.
    + injection Hi as ->. rewrite Forall_forall in Hz.
      apply Hz. by eapply list_elem_of_lookup_2.
    + eapply (IH i j); [lia|done..].
Qed.

Lemma sorted_enumerations (m : gmap string Z)
    (items1 items2 : list (string * Z)) :
  enumerates items1 m → enumerates items2 m → sorted items1 = sorted items2.
Proof.
  unfold enumerates, sorted. intros H1 H2.
  apply (Sorted_unique key_le); [apply Sorted_merge_sort, _..|].
  by rewrite !merge_sort_Permutation, H1, H2.
Qed.

Lemma sorted_NoDup (m : gmap string Z) (items : list (string * Z)) :
  enumerates items m → NoDup (sorted items).
Proof.
  unfold enumerates, sorted. intros H.
  rewrite merge_sort_Permutation, H. apply NoDup_map_to_list.
Qed.

(** ** The claim about the top-K selection *)

(** C5. The selection sorts the entries of the mapping by descending
    count and, among equal counts, by ascending token. The sorted
    sequence and the selected entries do not depend on the order in which
    the dict hands out its entries, so the result is deterministic. On
    the mapping {a: 4, b: 2, c: 4} with [K = 2] the selected entries are
    exactly those of the tokens a and c. (The notebook fixes [K = 20],
    [top20].) *)
Theorem top_by_count_then_token (m : gmap string Z)
    (iteritems iteritems' : list (string * Z)) (K : nat) :
  enumerates iteritems m → enumerates iteritems' m →
  (∀ i j x y, i < j →
     sorted iteritems !! i = Some x → sorted iteritems !! j = Some y →
     (y.2 < x.2)%Z ∨ (x.2 = y.2 ∧ String.ltb x.1 y.1 = true))
  ∧ sorted iteritems = sorted iteritems'
  ∧ top_k K iteritems = top_k K iteritems'
  ∧ top20 iteritems = top20 iteritems'
  ∧ (m = {["a" := 4%Z; "b" := 2%Z; "c" := 4%Z]} →
     take 2 (sorted iteritems) = [("a", 4%Z); ("c", 4%Z)]
     ∧ top_k 2 iteritems = {["a" := 4%Z; "c" := 4%Z]}).
Proof.
  intros Hen Hen'.
  pose proof (sorted_enumerations m _ _ Hen Hen') as Heq.
  split; [|split; [done|split; [|split]]].
  - intros i j [k1 v1] [k2 v2] Hij Hi Hj. cbn.
    assert (Hle : key_le (k1, v1) (k2, v2)).
    { eapply (StronglySorted_lookup_lt key_le); [|exact Hij|done..].
      apply StronglySorted_merge_sort; apply _. }
    assert (Hne : (k1, v1) ≠ (k2, v2)).
    { intros E. rewrite E in Hi.
      pose proof (NoDup_lookup _ _ _ _ (sorted_NoDup m _ Hen) Hi Hj). lia. }
    unfold key_le, tuple_le, sort_key in Hle. cbn in Hle.
    destruct Hle as [?|[? Hk]]; [left; lia|right].
    split; [lia|]. apply string_leb_ne_ltb; [done|].
    intros ->. apply Hne. f_equal. lia.
  - unfold top_k. by rewrite Heq.
  - unfold top20, top_k. by rewrite Heq.
  - intros Hm.
    assert (Hs : sorted iteritems = sorted (map_to_list m)).
    { apply (sorted_enumerations m); [done|]. unfold enumerates. done. }
    subst m. unfold top_k. rewrite Hs. split; vm_compute; reflexivity.
Qed.

Lemma top_by_count_then_token_witness :
  (∀ i j x y, i < j →
     sorted (map_to_list example_counts) !! i = Some x →
     sorted (map_to_list example_counts) !! j = Some y →
     (y.2 < x.2)%Z ∨ (x.2 = y.2 ∧ String.ltb x.1 y.1 = true))
  ∧ sorted (map_to_list example_counts) = sorted (map_to_list example_counts)
  ∧ top_k 2 (map_to_list example_counts) = top_k 2 (map_to_list example_counts)
  ∧ top20 (map_to_list example_counts) = top20 (map_to_list example_counts)
  ∧ (example_counts = {["a" := 4%Z; "b" := 2%Z; "c" := 4%Z]} →
     take 2 (sorted (map_to_list example_counts)) = [("a", 4%Z); ("c", 4%Z)]
     ∧ top_k 2 (map_to_list example_counts) = {["a" := 4%Z; "c" := 4%Z]}).
Proof.
  apply (top_by_count_then_token example_counts
           (map_to_list example_counts) (map_to_list example_counts) 2);
    unfold enumerates; reflexivity.
Defined.

(** ** Facts about filtering and projecting *)

Section series_facts.
Context {V : Type}.
Implicit Types (r : @record V) (results : list (@record V)).

Lemma comprehension_Ok {X} (l : list X) : comprehension Ok l = Ok l.
Proof. induction l as [|x l IH]; cbn; [done|]. by rewrite IH. Qed.

Lemma carries_truthy field r : carries field r → truthy r = true.
Proof.
  intros (d & -> & [v Hv]). cbn. apply bool_decide_eq_true.
  intros ->. by rewrite lookup_empty in Hv.
Qed.

Lemma carries_present field r : carries field r → present r.
Proof. intros (d & -> & _). by eexists. Qed.

Lemma carries_field_of field r : carries field r ↔ is_Some (field_of field r).
Proof.
  unfold carries, field_of. destruct r as [d|]; cbn.
  - split; [by intros (d' & [= <-] & ?)|eauto].
  - split; [by intros (d' & [=] & _)|by intros [? [=]]].
Qed.

Lemma project_filter_None {W} (g : V → result W) field results :
  project g field (filter_None results)
  = comprehension g (omap (field_of field) results).
Proof.
  unfold project, filter_None.
  induction results as [|r results IH]; [done|].
  rewrite filter_cons. destruct r as [d|]; cbn [omap truthy field_of].
  - destruct (decide (d = ∅)) as [->|Hd].
    + rewrite decide_False by (by rewrite bool_decide_eq_true; intros []).
      cbn. by rewrite lookup_empty.
    + rewrite decide_True by (by rewrite bool_decide_eq_true).
      cbn. unfold getitem. destruct (d !! field) as [v|] eqn:Hv; cbn.
      * destruct (g v); cbn; [by rewrite IH|done].
      * apply IH.
  - rewrite decide_False by done. apply IH.
Qed.

Lemma length_omap_field_of field results :
  length (omap (field_of field) results) = count_carrying field results.
Proof.
  unfold count_carrying. induction results as [|r results IH]; [done|].
  rewrite filter_cons.
  change (omap (field_of field) (r :: results)) with
    (match field_of field r with
     | Some v => v :: omap (field_of field) results
     | None => omap (field_of field) results
     end).
  destruct (field_of field r) as [v|] eqn:Hv.
  - rewrite decide_True by (apply carries_field_of; eauto).
    cbn [length]. by rewrite IH.
  - rewrite decide_False; [done|].
    intros [? Hsome]%carries_field_of. congruence.
Qed.

Lemma count_carrying_le_present field results :
  count_carrying field results ≤ count_present results.
Proof.
  unfold count_carrying, count_present.
  induction results as [|r results IH]; [done|].
  rewrite !filter_cons. destruct (decide (carries field r)) as [Hc|Hc].
  - rewrite decide_True by (by eapply carries_present). cbn. lia.
  - destruct (decide (present r)); cbn; lia.
Qed.

Lemma count_carrying_eq_present field results :
  Forall (λ r, present r → carries field r) results →
  count_carrying field results = count_present results.
Proof.
  unfold count_carrying, count_present.
  induction 1 as [|r results Hr _ IH]; [done|].
  rewrite !filter_cons. destruct (decide (present r)) as [Hp|Hp].
  - rewrite decide_True by auto. cbn. by rewrite IH.
  - rewrite decide_False; [done|]. intros Hc. by eapply Hp, carries_present.
Qed.

Lemma count_present_lt results :
  None ∈ results → count_present results < length results.
Proof.
  intros Hin. unfold count_present.
  eapply length_filter_lt; [exact Hin|]. by intros [? [=]].
Qed.

(** Without the filter, a null record stops the projection. *)
Lemma project_None_raises {W} (g : V → W) field results :
  None ∈ results →
  project (λ v, Ok (g v)) field results = Raise TypeError.
Proof.
  unfold project. induction results as [|r results IH]; intros Hin.
  - by apply elem_of_nil in Hin.
  - destruct r as [d|]; [|done].
    apply elem_of_cons in Hin as [[=]|Hin]. cbn. unfold getitem.
    destruct (d !! field) as [v|] eqn:Hv; cbn.
    + by rewrite IH.
    + by apply IH.
Qed.
End series_facts.

(** ** The claim about null records *)

(** C7, as the code has it. Given [N] results of which some are null,
    [filter(None, ...)] removes the null (and the empty) records before
    the projection, which then does not raise, although it would on the
    unfiltered list. The NDVI series has as many elements as there are
    present records carrying the ['ndvi'] field: at most the count of
    present records, which is strictly less than [N], and equal to it
    when every present record carries the field. *)
Theorem ndviSeries_skips_null_records {V} (results : list (@record V)) :
  None ∈ results →
  ∃ series,
    ndviSeries (filter_None results) = Ok series
    ∧ ndviSeries results = Raise TypeError
    ∧ length series = count_carrying "ndvi" results
    ∧ length series ≤ count_present results
    ∧ count_present results < length results
    ∧ (Forall (λ r, present r → carries "ndvi" r) results →
       length series = count_present results).
Proof.
  intros Hnone. unfold ndviSeries.
  rewrite project_filter_None, comprehension_Ok.
  eexists. split; [done|].
  split; [by apply (project_None_raises id)|].
  rewrite length_omap_field_of.
  split; [done|]. split; [apply count_carrying_le_present|].
  split; [by apply count_present_lt|]. apply count_carrying_eq_present.
Qed.

Lemma ndviSeries_skips_null_records_witness :
  ∃ series : list Z,
    ndviSeries (filter_None example_results) = Ok series
    ∧ ndviSeries example_results = Raise TypeError
    ∧ length series = count_carrying "ndvi" example_results
    ∧ length series ≤ count_present example_results
    ∧ count_present example_results < length example_results
    ∧ (Forall (λ r, present r → carries "ndvi" r) example_results →
       length series = count_present example_results).
Proof.
  apply (ndviSeries_skips_null_records example_results).
  unfold example_results. apply list_elem_of_here.
Defined.

(** C7, as the claim states it, fails: a present record that lacks the
    projected field is dropped by the [if 'ndvi' in obs] guard, so the
    series can be shorter than the count of present records. *)
Lemma ndviSeries_shorter_than_present :
  ∃ series : list Z,
    ndviSeries (filter_None [None; Some {["date" := 20170829%Z]}]) = Ok series
    ∧ length series ≠ count_present [None; Some {["date" := 20170829%Z]}].
Proof. exists []. split; [vm_compute; reflexivity|]. vm_compute. lia. Qed.

(** ** Further properties of the batcher and of slices *)

Lemma batch_nil {A} (P i : Z) : batch (@nil A) P i = [].
Proof. unfold batch, slice. cbn. by rewrite drop_nil, take_nil. Qed.

Lemma cut_same (L i : Z) : (1 ≤ L)%Z → cut L L i = i.
Proof. intros HL. unfold cut. rewrite Z.div_mul; lia. Qed.

Lemma cut_multiple (q P i : Z) : (1 ≤ P)%Z → cut (q * P) P i = (i * q)%Z.
Proof.
  intros HP. unfold cut. rewrite Z.mul_assoc, Z.div_mul; lia.
Qed.

(** X1. With one part, the default, the batcher returns the whole list
    as its only batch. *)
Theorem split_list_one_part {A} (alist : list A) :
  split_list alist 1 = Ok [alist] ∧ split_list_default alist = Ok [alist].
Proof.
  assert (H1 : split_list alist 1 = Ok [alist]); [|by split].
  rewrite split_list_batches by lia.
  pose proof (concat_batches alist 1 ltac:(lia)) as Hc.
  change (range 1) with [0%Z] in *. cbn in *.
  rewrite app_nil_r in Hc. by rewrite Hc.
Qed.

(** X2. On the empty list the batcher returns as many empty batches as
    parts were asked for (none when [wanted_parts <= 0]). *)
Theorem split_list_nil {A} (P : Z) :
  split_list (@nil A) P = Ok (replicate (Z.to_nat P) []).
Proof.
  destruct (decide (1 ≤ P)%Z) as [HP|HP].
  - rewrite split_list_batches by done. f_equal.
    rewrite <-(length_range P). apply const_fmap. intros _ i _. apply batch_nil.
  - unfold split_list. rewrite range_nonpos by lia.
    by replace (Z.to_nat P) with 0 by lia.
Qed.

(** X3. Asking for as many parts as the list has items puts every item
    in a batch of its own, in order. *)
Theorem split_list_singletons {A} (alist : list A) :
  alist ≠ [] →
  split_list alist (Z.of_nat (length alist)) = Ok ((λ x, [x]) <$> alist).
Proof.
  intros Hne.
  assert (HL : (1 ≤ Z.of_nat (length alist))%Z).
  { destruct alist; [done|]. cbn. lia. }
  rewrite split_list_batches by done. f_equal.
  apply list_eq. intros i. unfold range.
  rewrite !list_lookup_fmap, Nat2Z.id.
  destruct (decide (i < length alist)) as [Hi|Hi].
  - rewrite lookup_seq_lt by done. cbn.
    destruct (lookup_lt_is_Some_2 alist i Hi) as [x Hx]. rewrite Hx. cbn.
    f_equal. rewrite batch_take_drop by lia. cbn zeta.
    rewrite !cut_same by done.
    replace (Z.to_nat (Z.of_nat i + 1) - Z.to_nat (Z.of_nat i)) with 1 by lia.
    rewrite Nat2Z.id. by rewrite (drop_S _ _ _ Hx).
  - rewrite lookup_seq_ge by lia. by rewrite lookup_ge_None_2 by lia.
Qed.

Lemma split_list_singletons_witness :
  split_list ["u1"; "u2"; "u3"] (Z.of_nat (length ["u1"; "u2"; "u3"]))
  = Ok ((λ x, [x]) <$> ["u1"; "u2"; "u3"]).
Proof. apply (split_list_singletons ["u1"; "u2"; "u3"]). discriminate. Defined.

(** X4. When the number of parts divides the number of items, all
    batches have the same size, the quotient. *)
Theorem split_list_even {A} (alist : list A) (P : Z) (q : nat) :
  (1 ≤ P)%Z → Z.of_nat (length alist) = (Z.of_nat q * P)%Z →
  ∃ bs, split_list alist P = Ok bs ∧ Forall (λ b, length b = q) bs.
Proof.
  intros HP HL. exists (batch alist P <$> range P).
  split; [by apply split_list_batches|].
  apply Forall_fmap, Forall_forall. intros i Hi%elem_of_range. cbn.
  pose proof (length_batch alist P i HP Hi) as Hlen. cbn zeta in Hlen.
  rewrite HL, !cut_multiple in Hlen by done. lia.
Qed.

Lemma split_list_even_witness :
  ∃ bs, split_list ["u1"; "u2"; "u3"; "u4"; "u5"; "u6"] 3 = Ok bs
        ∧ Forall (λ b, length b = 2) bs.
Proof.
  apply (split_list_even ["u1"; "u2"; "u3"; "u4"; "u5"; "u6"] 3 2);
    [lia|reflexivity].
Defined.

(** X5. When there are at least as many items as parts, no batch is
    empty. *)
Theorem split_list_no_empty_batch {A} (alist : list A) (P : Z) :
  (1 ≤ P)%Z → (P ≤ Z.of_nat (length alist))%Z →
  ∃ bs, split_list alist P = Ok bs ∧ Forall (λ b, b ≠ []) bs.
Proof.
  intros HP HL. exists (batch alist P <$> range P).
  split; [by apply split_list_batches|].
  apply Forall_fmap, Forall_forall. intros i Hi%elem_of_range. cbn.
  pose proof (batch_size_bounds alist P i HP Hi) as [Hlo _].
  assert (1 ≤ Z.of_nat (length alist) `div` P)%Z.
  { apply Z.div_le_lower_bound; lia. }
  intros Hnil. rewrite Hnil in Hlo. cbn in Hlo. lia.
Qed.

Lemma split_list_no_empty_batch_witness :
  ∃ bs, split_list ["u1"; "u2"; "u3"; "u4"; "u5"] 4 = Ok bs
        ∧ Forall (λ b, b ≠ []) bs.
Proof.
  apply (split_list_no_empty_batch ["u1"; "u2"; "u3"; "u4"; "u5"] 4);
    cbn; lia.
Defined.

(** X6. Cutting a list at any integer index, negative or beyond the
    ends, loses nothing: [l[:k] + l[k:] == l]. *)
Theorem slice_split_at {A} (l : list A) (k : Z) :
  slice l 0 k ++ slice l k (Z.of_nat (length l)) = l.
Proof.
  unfold slice, slice_bound.
  set (n := Z.of_nat (length l)).
  rewrite (decide_False (P := (0 < 0)%Z)) by lia.
  rewrite (decide_False (P := (n < 0)%Z)) by lia.
  rewrite Z.min_id, (Z.min_l 0 n) by lia.
  set (b := Z.to_nat (if decide (k < 0)%Z then Z.max (k + n) 0 else Z.min k n)).
  assert (Hb : b ≤ length l).
  { subst b n. destruct (decide (k < 0)%Z); lia. }
  change (Z.to_nat 0) with 0. rewrite Nat.sub_0_r. cbn [drop].
  rewrite (take_ge (drop b l)) by (rewrite length_drop; lia).
  apply take_drop.
Qed.

(** ** Further properties of [split] and of the aggregation *)

Lemma split_no_separator (sep : ascii) (s : string) :
  sep ∉ String.list_ascii_of_string s → split sep s = [s].
Proof.
  induction s as [|c s IH]; cbn; [done|].
  rewrite not_elem_of_cons. intros [Hc Hs].
  destruct (decide (c = sep)) as [->|_]; [done|]. by rewrite IH.
Qed.

Lemma split_app_separator (sep : ascii) (s1 s2 : string) :
  split sep (s1 +:+ String sep s2) = split sep s1 ++ split sep s2.
Proof.
  induction s1 as [|c s1 IH].
  - change (EmptyString +:+ String sep s2) with (String sep s2). cbn.
    by destruct (decide (sep = sep)).
  - change (String c s1 +:+ String sep s2)
      with (String c (s1 +:+ String sep s2)). cbn.
    destruct (decide (c = sep)); rewrite IH; [done|].
    pose proof (split_not_nil sep s1). by destruct (split sep s1).
Qed.

Lemma count_for_classify (k word : string) :
  count_for k word =
    match classify word with
    | Count k' n => if decide (k' = k) then Some n else None
    | _ => None
    end.
Proof.
  unfold count_for, classify.
  destruct (split ":" word) as [|k' [|c rest]]; [done..|].
  destruct (int c), (decide (k' = k)); done.
Qed.

Lemma Exists_concat {A} (P : A → Prop) (ls : list (list A)) :
  Exists P (concat ls) ↔ Exists (Exists P) ls.
Proof.
  induction ls as [|l ls IH]; cbn.
  - by rewrite !Exists_nil.
  - by rewrite Exists_app, Exists_cons, IH.
Qed.

Lemma for_each_count_word_raises (ws : list string) (m : gmap string Z) :
  Exists (λ w, ¬ has_separator w) ws →
  for_each count_word ws m = Raise IndexError.
Proof.
  intros Hex. revert m.
  induction Hex as [w ws Hw|w ws _ IH]; intros m;
    rewrite for_each_cons, count_word_classify.
  - apply classify_no_separator in Hw. by rewrite Hw.
  - destruct (classify w); cbn; [done|apply IH..].
Qed.

(** The mapping after the inner loop, key by key. *)
Lemma for_each_count_word_lookup (ws : list string) (m0 m : gmap string Z)
    (k : string) :
  for_each count_word ws m0 = Ok m →
  m !! k = match omap (count_for k) ws with
           | [] => m0 !! k
           | ns => Some (default 0 (m0 !! k) + sum_Z ns)%Z
           end.
Proof.
  revert m0. induction ws as [|w ws IH]; intros m0 Hm.
  - cbn in Hm. by injection Hm as <-.
  - rewrite for_each_cons, count_word_classify in Hm.
    change (omap (count_for k) (w :: ws)) with
      (match count_for k w with
       | Some n => n :: omap (count_for k) ws
       | None => omap (count_for k) ws
       end).
    rewrite count_for_classify.
    destruct (classify w) as [| |k' n]; cbn in Hm; [done|by apply IH|].
    apply IH in Hm. rewrite Hm. unfold add_count.
    destruct (decide (k' = k)) as [->|Hne].
    + rewrite lookup_insert_eq. cbn.
      destruct (omap (count_for k) ws) as [|n' ns]; cbn; f_equal; lia.
    + by rewrite lookup_insert_ne.
Qed.

(** X7. The aggregation stops with an exception exactly when some token
    of some record holds no [':']; the exception is then [IndexError],
    and the loop never raises anything else. *)
Theorem all_words_raises_iff (items : list item) :
  (all_words items = Raise IndexError
   ↔ Exists (λ it, Exists (λ w, ¬ has_separator w) (words it)) items)
  ∧ (∀ e, all_words items = Raise e → e = IndexError).
Proof.
  unfold all_words. rewrite for_each_count_words_flat.
  assert (Hex : Exists (λ it, Exists (λ w, ¬ has_separator w) (words it)) items
                ↔ Exists (λ w, ¬ has_separator w) (concat (words <$> items))).
  { rewrite Exists_concat, Exists_fmap. done. }
  rewrite Hex.
  destruct (decide (Forall has_separator (concat (words <$> items))))
    as [Hall|Hnot].
  - destruct (for_each_count_word_skips _ ∅ Hall) as (m & Hm & _).
    rewrite Hm. split; [|done]. split; [done|].
    intros Hsome%Exists_exists. destruct Hsome as (w & Hw & Hno).
    rewrite Forall_forall in Hall. by destruct Hno; apply Hall.
  - apply not_Forall_Exists in Hnot; [|apply _].
    rewrite (for_each_count_word_raises _ _ Hnot).
    split; [done|]. by intros e [= <-].
Qed.

(** X8. When the aggregation returns a mapping, the count under every
    key is the sum of the counts of the tokens carrying that key with a
    count that [int] accepts, over all records; a key that no such token
    carries is absent. *)
Theorem all_words_tally (items : list item) (m : gmap string Z) (k : string) :
  all_words items = Ok m →
  m !! k = tally k (concat (words <$> items)).
Proof.
  unfold all_words, tally. rewrite for_each_count_words_flat.
  intros Hm. rewrite (for_each_count_word_lookup _ _ _ k Hm).
  rewrite lookup_empty. by destruct (omap _ _).
Qed.

Lemma all_words_tally_witness :
  ({["a" := 4%Z; "b" := 2%Z]} : gmap string Z) !! "a"
  = tally "a" (concat (words <$> example_items)).
Proof.
  apply (all_words_tally example_items). vm_compute. reflexivity.
Defined.

(** X9. A token built as [word + ':' + count] from a word and a count
    text that hold no [':'] is read back as that word and that count:
    [split] returns the two parts, and the loop body adds the count to
    the entry of the word when [int] accepts it and leaves the mapping
    alone when it does not. *)
Theorem count_word_built_token (m : gmap string Z) (word count : string) :
  ¬ has_separator word → ¬ has_separator count →
  split ":" (word +:+ ":" +:+ count) = [word; count]
  ∧ count_word m (word +:+ ":" +:+ count) =
      match int count with
      | Ok n => Ok (<[word := (default 0 (m !! word) + n)%Z]> m)
      | Raise _ => Ok m
      end.
Proof.
  unfold has_separator. intros Hw Hc.
  assert (Hs : split ":" (word +:+ ":" +:+ count) = [word; count]).
  { change (":" +:+ count) with (String ":" count).
    by rewrite split_app_separator, !split_no_separator. }
  split; [done|].
  rewrite count_word_classify. unfold classify. rewrite Hs.
  by destruct (int count).
Qed.

Lemma count_word_built_token_witness :
  split ":" ("news" +:+ ":" +:+ "12") = ["news"; "12"]
  ∧ count_word {["news" := 3%Z]} ("news" +:+ ":" +:+ "12") =
      match int "12" with
      | Ok n =>
          Ok (<["news" := (default 0 (({["news" := 3%Z]} : gmap string Z)
                                        !! "news") + n)%Z]>
                {["news" := 3%Z]})
      | Raise _ => Ok {["news" := 3%Z]}
      end.
Proof.
  apply (count_word_built_token {["news" := 3%Z]} "news" "12");
    apply (bool_decide_unpack _); vm_compute; exact I.
Defined.

(** X10. The sentiment projection returns a list exactly when every
    record's sentiment field is a float literal, and the list then holds
    the converted fields of the records, one per record, in order. *)
Theorem sentiments_Ok_iff {F} (parse_float : string → option F)
    (items : list item) (xs : list F) :
  sentiments parse_float items = Ok xs
  ↔ Forall2 (λ it x, parse_float (sentiment it) = Some x) items xs.
Proof.
  unfold sentiments.
  assert (Hgen : ∀ acc ys,
    for_each (append_sentiment parse_float) items acc = Ok ys
    ↔ ∃ xs', ys = acc ++ xs'
             ∧ Forall2 (λ it x, parse_float (sentiment it) = Some x) items xs').
  { induction items as [|it items IH]; intros acc ys.
    - cbn. split.
      + intros [= <-]. exists []. by rewrite app_nil_r.
      + intros (xs' & -> & Hnil%Forall2_nil_inv_l). subst.
        by rewrite app_nil_r.
    - rewrite for_each_cons, append_sentiment_eq.
      destruct (parse_float (sentiment it)) as [x|] eqn:Hx; cbn.
      + rewrite IH. split.
        * intros (xs' & -> & Hall). exists (x :: xs').
          rewrite <-(assoc_L (++)). split; [done|]. by constructor.
        * intros (xs' & -> & Hall).
          apply Forall2_cons_inv_l in Hall as (x' & xs'' & Hx' & Hall & ->).
          exists xs''. rewrite <-(assoc_L (++)). cbn.
          split; [congruence|done].
      + split; [done|]. intros (xs' & _ & Hall).
        apply Forall2_cons_inv_l in Hall as (x' & xs'' & Hx' & _). congruence. }
  rewrite Hgen. split.
  - by intros (xs' & -> & Hall).
  - intros Hall. by exists xs.
Qed.

(** ** Further properties of the top-K selection *)

Lemma foldl_insert_union (l : list (string * Z)) (m0 : gmap string Z) :
  NoDup l.*1 →
  foldl (λ m kv, <[kv.1 := kv.2]> m) m0 l = list_to_map l ∪ m0.
Proof.
  revert m0. induction l as [|[k v] l IH]; intros m0 Hnd; cbn.
  - by rewrite (left_id_L ∅ (∪)).
  - apply NoDup_cons in Hnd as [Hk Hnd]. rewrite IH by done. cbn.
    rewrite <-insert_union_l. symmetry. apply insert_union_r.
    by apply not_elem_of_list_to_map_1.
Qed.

Lemma dict_list_to_map (l : list (string * Z)) :
  NoDup l.*1 → dict l = list_to_map l.
Proof.
  intros Hnd. unfold dict. rewrite foldl_insert_union by done.
  by rewrite (right_id_L ∅ (∪)).
Qed.

Lemma sorted_Permutation (m : gmap string Z) (items : list (string * Z)) :
  enumerates items m → sorted items ≡ₚ map_to_list m.
Proof. unfold enumerates, sorted. intros H. by rewrite merge_sort_Permutation. Qed.

Lemma sorted_NoDup_fst (m : gmap string Z) (items : list (string * Z)) :
  enumerates items m → NoDup (sorted items).*1.
Proof.
  intros H%sorted_Permutation. rewrite H. apply NoDup_fst_map_to_list.
Qed.

Lemma take_NoDup_fst (K : nat) (l : list (string * Z)) :
  NoDup l.*1 → NoDup (take K l).*1.
Proof.
  intros Hnd. rewrite fmap_take.
  eapply sublist_NoDup; [exact Hnd|apply sublist_take].
Qed.

Lemma top_k_lookup (m : gmap string Z) (items : list (string * Z)) (K : nat)
    (k : string) (v : Z) :
  enumerates items m →
  top_k K items !! k = Some v ↔ (k, v) ∈ take K (sorted items).
Proof.
  intros Hen. unfold top_k.
  rewrite dict_list_to_map by (by eapply take_NoDup_fst, sorted_NoDup_fst).
  symmetry. apply elem_of_list_to_map.
  by eapply take_NoDup_fst, sorted_NoDup_fst.
Qed.

(** X11. Whatever the order in which the dict hands out its entries,
    the selection returns entries of the mapping itself, each with its
    own count, and exactly [K] of them, or all of them when the mapping
    has fewer than [K]. *)
Theorem top_k_selects (m : gmap string Z) (iteritems : list (string * Z))
    (K : nat) :
  enumerates iteritems m →
  top_k K iteritems ⊆ m ∧ size (top_k K iteritems) = K `min` size m.
Proof.
  intros Hen. split.
  - apply map_subseteq_spec. intros k v Hkv.
    apply (top_k_lookup m) in Hkv; [|done].
    apply elem_of_take in Hkv as (i & Hi & _).
    apply list_elem_of_lookup_2 in Hi.
    rewrite (sorted_Permutation m _ Hen) in Hi.
    by apply elem_of_map_to_list in Hi.
  - unfold top_k.
    rewrite dict_list_to_map by (by eapply take_NoDup_fst, sorted_NoDup_fst).
    rewrite map_size_list_to_map
      by (by eapply take_NoDup_fst, sorted_NoDup_fst).
    rewrite length_take, (sorted_Permutation m _ Hen).
    by rewrite length_map_to_list.
Qed.

Lemma top_k_selects_witness :
  top_k 2 (map_to_list example_counts) ⊆ example_counts
  ∧ size (top_k 2 (map_to_list example_counts)) = 2 `min` size example_counts.
Proof.
  apply (top_k_selects example_counts (map_to_list example_counts) 2).
  unfold enumerates. reflexivity.
Defined.

(** X12. A mapping with at most 20 tokens is returned whole by the
    top-20 selection (and one with at most [K] by a top-[K]). *)
Theorem top20_of_small_mapping (m : gmap string Z)
    (iteritems : list (string * Z)) (K : nat) :
  enumerates iteritems m →
  (size m ≤ K → top_k K iteritems = m)
  ∧ (size m ≤ 20 → top20 iteritems = m).
Proof.
  intros Hen.
  assert (Hgen : ∀ K', size m ≤ K' → top_k K' iteritems = m).
  { intros K' Hle. unfold top_k.
    rewrite take_ge.
    - rewrite dict_list_to_map by (by eapply sorted_NoDup_fst).
      rewrite <-(list_to_map_to_list m). apply list_to_map_proper.
      + by eapply sorted_NoDup_fst.
      + by apply sorted_Permutation.
    - by rewrite (sorted_Permutation m _ Hen), length_map_to_list. }
  split; [apply Hgen|]. intros Hle. unfold top20. by apply Hgen.
Qed.

Lemma top20_of_small_mapping_witness :
  (size example_counts ≤ 3 → top_k 3 (map_to_list example_counts) = example_counts)
  ∧ (size example_counts ≤ 20 → top20 (map_to_list example_counts) = example_counts).
Proof.
  apply (top20_of_small_mapping example_counts (map_to_list example_counts) 3).
  unfold enumerates. reflexivity.
Defined.

(** X13. Every selected token outranks every token of the mapping that
    is left out: its count is larger, or the counts are equal and its
    text comes first. *)
Theorem top_k_outranks (m : gmap string Z) (iteritems : list (string * Z))
    (K : nat) (k k' : string) (v v' : Z) :
  enumerates iteritems m →
  top_k K iteritems !! k = Some v →
  m !! k' = Some v' → top_k K iteritems !! k' = None →
  (v' < v)%Z ∨ (v' = v ∧ String.ltb k k' = true).
Proof.
  intros Hen Hin Hm Hout.
  apply (top_k_lookup m) in Hin; [|done].
  apply elem_of_take in Hin as (i & Hi & HiK).
  assert (Hs : (k', v') ∈ sorted iteritems).
  { rewrite (sorted_Permutation m _ Hen). by apply elem_of_map_to_list. }
  apply list_elem_of_lookup_1 in Hs as [j Hj].
  assert (HjK : K ≤ j).
  { destruct (decide (K ≤ j)) as [|Hlt]; [done|].
    assert (Hin' : (k', v') ∈ take K (sorted iteritems)).
    { apply elem_of_take. exists j. split; [done|lia]. }
    apply (top_k_lookup m) in Hin'; [|done]. congruence. }
  assert (Hle : key_le (k, v) (k', v')).
  { eapply (StronglySorted_lookup_lt key_le (sorted iteritems) i j);
      [|lia|done..].
    apply StronglySorted_merge_sort; apply _. }
  unfold key_le, tuple_le, sort_key in Hle. cbn in Hle.
  destruct Hle as [?|[? Hk]]; [left; lia|right].
  split; [lia|]. apply string_leb_ne_ltb; [done|].
  intros ->. assert (v = v') by lia. subst v'.
  pose proof (NoDup_lookup _ _ _ _ (sorted_NoDup m _ Hen) Hi Hj). lia.
Qed.

Lemma top_k_outranks_witness :
  (2 < 4)%Z ∨ (2%Z = 4%Z ∧ String.ltb "c" "b" = true).
Proof.
  apply (top_k_outranks example_counts (map_to_list example_counts) 2
           "c" "b" 4 2).
  - unfold enumerates. reflexivity.
  - vm_compute. reflexivity.
  - vm_compute. reflexivity.
  - vm_compute. reflexivity.
Defined.

(** ** Strings as lists of characters *)

Lemma list_ascii_of_string_app (s1 s2 : string) :
  String.list_ascii_of_string (s1 +:+ s2)
  = String.list_ascii_of_string s1 ++ String.list_ascii_of_string s2.
Proof.
  induction s1 as [|c s1 IH]; [done|].
  change (String c s1 +:+ s2) with (String c (s1 +:+ s2)). cbn. by rewrite IH.
Qed.

Lemma string_of_list_ascii_app (l1 l2 : list ascii) :
  String.string_of_list_ascii (l1 ++ l2)
  = String.string_of_list_ascii l1 +:+ String.string_of_list_ascii l2.
Proof.
  induction l1 as [|c l1 IH]; [done|]. cbn. rewrite IH. done.
Qed.

Lemma length_list_ascii_of_string (s : string) :
  length (String.list_ascii_of_string s) = String.length s.
Proof. induction s as [|c s IH]; cbn; [done|]. by rewrite IH. Qed.

Lemma string_length_app (s1 s2 : string) :
  String.length (s1 +:+ s2) = String.length s1 + String.length s2.
Proof.
  rewrite <-!length_list_ascii_of_string, list_ascii_of_string_app.
  apply length_app.
Qed.

Lemma string_app_assoc (s1 s2 s3 : string) :
  (s1 +:+ s2) +:+ s3 = s1 +:+ (s2 +:+ s3).
Proof.
  induction s1 as [|c s1 IH]; [done|].
  change (String c s1 +:+ s2) with (String c (s1 +:+ s2)).
  change (String c (s1 +:+ s2) +:+ s3) with (String c ((s1 +:+ s2) +:+ s3)).
  by rewrite IH.
Qed.

Lemma string_app_nil_r (s : string) : s +:+ EmptyString = s.
Proof.
  induction s as [|c s IH]; [done|].
  change (String c s +:+ EmptyString) with (String c (s +:+ EmptyString)).
  by rewrite IH.
Qed.

(** The last two elements of a list and what precedes them, by slices. *)
Lemma slice_last_two {A} (p : list A) (a b : A) :
  slice (p ++ [a; b]) (-2) (Z.of_nat (length (p ++ [a; b]))) = [a; b]
  ∧ slice (p ++ [a; b]) 0 (-2) = p.
Proof.
  unfold slice, slice_bound. rewrite length_app. cbn [length].
  set (n := length p).
  rewrite (decide_True (P := (-2 < 0)%Z)) by lia.
  rewrite (decide_False (P := (Z.of_nat (n + 2) < 0)%Z)) by lia.
  rewrite (decide_False (P := (0 < 0)%Z)) by lia.
  replace (Z.to_nat (Z.max (-2 + Z.of_nat (n + 2)) 0)) with n by lia.
  replace (Z.to_nat (Z.min (Z.of_nat (n + 2)) (Z.of_nat (n + 2))))
    with (n + 2) by lia.
  replace (Z.to_nat (Z.min 0 (Z.of_nat (n + 2)))) with 0 by lia.
  split.
  - replace (n + 2 - n) with 2 by lia. subst n.
    by rewrite drop_app_length.
  - rewrite Nat.sub_0_r, drop_0. subst n. by rewrite take_app_length.
Qed.

Lemma slice_short {A} (l : list A) :
  length l < 2 → slice l (-2) (Z.of_nat (length l)) = l.
Proof.
  intros Hl. unfold slice, slice_bound.
  rewrite (decide_True (P := (-2 < 0)%Z)) by lia.
  rewrite (decide_False (P := (Z.of_nat (length l) < 0)%Z)) by lia.
  replace (Z.to_nat (Z.max (-2 + Z.of_nat (length l)) 0)) with 0 by lia.
  rewrite Z.min_id, Nat2Z.id, Nat.sub_0_r, drop_0. by apply take_ge.
Qed.

Lemma list_last_two {A} (l : list A) :
  length l < 2 ∨ ∃ p a b, l = p ++ [a; b].
Proof.
  destruct (decide (length l < 2)) as [|Hl]; [by left|right].
  exists (take (length l - 2) l).
  pose proof (take_drop (length l - 2) l) as Hsplit.
  assert (Hlen : length (drop (length l - 2) l) = 2)
    by (rewrite length_drop; lia).
  destruct (drop (length l - 2) l) as [|a [|b [|c r]]]; cbn in Hlen; try lia.
  by exists a, b.
Qed.

(** Every string is shorter than two characters, its own [s[-2:]], or
    ends in two characters that [s[-2:]] returns and [s[:-2]] drops. *)
Lemma string_last_two (s : string) :
  (String.length s < 2 ∧ str_slice s (-2) (len s) = s)
  ∨ ∃ p a b, s = p +:+ String a (String b EmptyString)
             ∧ str_slice s (-2) (len s) = String a (String b EmptyString)
             ∧ str_slice s 0 (-2) = p.
Proof.
  unfold str_slice, len. rewrite <-length_list_ascii_of_string.
  destruct (list_last_two (String.list_ascii_of_string s))
    as [Hshort|(p & a & b & Hl)].
  - left. split; [done|]. rewrite slice_short by done.
    apply String.string_of_list_ascii_of_string.
  - right. exists (String.string_of_list_ascii p), a, b.
    destruct (slice_last_two p a b) as [H1 H2]. rewrite Hl, H1, H2.
    split; [|done].
    rewrite <-(String.string_of_list_ascii_of_string s), Hl.
    by rewrite string_of_list_ascii_app.
Qed.

Lemma str_slice_app_two (p : string) (a b : ascii) :
  let s := p +:+ String a (String b EmptyString) in
  str_slice s (-2) (len s) = String a (String b EmptyString)
  ∧ str_slice s 0 (-2) = p.
Proof.
  cbn zeta. unfold str_slice, len.
  rewrite <-length_list_ascii_of_string, list_ascii_of_string_app. cbn.
  destruct (slice_last_two (String.list_ascii_of_string p) a b) as [H1 H2].
  rewrite H1, H2. split; [done|].
  apply String.string_of_list_ascii_of_string.
Qed.

Lemma replace_version_app (old new p : string) (a b : ascii) :
  replace_version old new (p +:+ String a (String b EmptyString)) =
    if decide (String a (String b EmptyString) = old)
    then p +:+ new
    else p +:+ String a (String b EmptyString).
Proof.
  unfold replace_version.
  destruct (str_slice_app_two p a b) as [H1 H2]. cbn zeta in *.
  by rewrite H1, H2.
Qed.

Lemma replace_version_short (old new s : string) :
  String.length s < 2 → String.length old = 2 →
  replace_version old new s = s.
Proof.
  intros Hs Hold. unfold replace_version.
  destruct (string_last_two s) as [[_ ->]|(p & a & b & -> & _)].
  - rewrite decide_False; [done|]. intros ->. lia.
  - rewrite string_length_app in Hs. cbn in Hs. lia.
Qed.

(** ** Properties of the scene list *)

(** Closed decidable facts, by evaluation. *)
Ltac by_decide := apply (bool_decide_unpack _); vm_compute; exact I.

Lemma fix_version_app (p : string) (a b : ascii) :
  fix_version (p +:+ String a (String b EmptyString)) =
    if decide (String a (String b EmptyString) = "01") then p +:+ "00"
    else if decide (String a (String b EmptyString) = "02") then p +:+ "00"
    else if decide (String a (String b EmptyString) = "03") then p +:+ "02"
    else p +:+ String a (String b EmptyString).
Proof.
  unfold fix_version. rewrite replace_version_app.
  destruct (decide (String a (String b EmptyString) = "01")) as [_|H1].
  - rewrite replace_version_app.
    rewrite (decide_False (P := ("00" = "02"))) by done.
    rewrite replace_version_app.
    by rewrite (decide_False (P := ("00" = "03"))) by done.
  - rewrite replace_version_app.
    destruct (decide (String a (String b EmptyString) = "02")) as [_|H2].
    + rewrite replace_version_app.
      by rewrite (decide_False (P := ("00" = "03"))) by done.
    + by rewrite replace_version_app.
Qed.

Lemma fix_version_short (s : string) :
  String.length s < 2 → fix_version s = s.
Proof.
  intros Hs. unfold fix_version.
  rewrite (replace_version_short "01" "00" s) by done.
  rewrite (replace_version_short "02" "00" s) by done.
  by rewrite (replace_version_short "03" "02" s) by done.
Qed.

Lemma index_Z_penultimate {A} (l : list A) (a b : A) :
  index_Z (l ++ [a; b]) (-2) = Ok a.
Proof.
  unfold index_Z. rewrite length_app. cbn [length].
  rewrite (decide_True (P := (-2 < 0)%Z)) by lia.
  rewrite decide_True by lia. unfold index.
  replace (Z.to_nat (-2 + Z.of_nat (length l + 2))) with (length l + 0) by lia.
  by rewrite lookup_app_r, Nat.add_0_r, Nat.sub_diag by lia.
Qed.

Lemma index_Z_penultimate_short {A} (l : list A) :
  length l < 2 → index_Z l (-2) = Raise IndexError.
Proof.
  intros Hl. unfold index_Z.
  rewrite (decide_True (P := (-2 < 0)%Z)) by lia.
  by rewrite decide_False by lia.
Qed.

Lemma split_length_one (sep : ascii) (s : string) :
  sep ∉ String.list_ascii_of_string s → length (split sep s) = 1.
Proof. intros H. by rewrite split_no_separator. Qed.

(** X14. The version fix rewrites a trailing 01 or 02 into 00 and a
    trailing 03 into 02, whatever precedes them. The three tests run
    once and in that order, so 03 stops at 02, and fixing a fixed scene
    again moves it on to 00. *)
Theorem fix_version_table (p : string) :
  fix_version (p +:+ "01") = p +:+ "00"
  ∧ fix_version (p +:+ "02") = p +:+ "00"
  ∧ fix_version (p +:+ "03") = p +:+ "02"
  ∧ fix_version (fix_version (p +:+ "03")) = p +:+ "00".
Proof.
  assert (H3 : fix_version (p +:+ "03") = p +:+ "02")
    by (by rewrite fix_version_app).
  split; [by rewrite fix_version_app|].
  split; [by rewrite fix_version_app|].
  split; [done|]. rewrite H3. by rewrite fix_version_app.
Qed.

Lemma fix_version_spec (scene : string) :
  String.length (fix_version scene) = String.length scene
  ∧ str_slice (fix_version scene) 0 (-2) = str_slice scene 0 (-2)
  ∧ (str_slice scene (-2) (len scene) ∉ ["01"; "02"; "03"] →
     fix_version scene = scene)
  ∧ str_slice (fix_version scene) (-2) (len (fix_version scene))
    ∉ ["01"; "03"].
Proof.
  destruct (string_last_two scene) as [[Hshort Hs]|(p & a & b & -> & Hs & Hp)].
  - rewrite fix_version_short by done. split_and!; [done..|].
    rewrite Hs. intros Hin.
    assert (String.length scene = 2); [|lia].
    apply elem_of_cons in Hin as [->|Hin]; [done|].
    by apply list_elem_of_singleton in Hin as ->.
  - rewrite fix_version_app.
    destruct (decide (String a (String b EmptyString) = "01")) as [E|N1];
      [|destruct (decide (String a (String b EmptyString) = "02")) as [E|N2];
        [|destruct (decide (String a (String b EmptyString) = "03"))
            as [E|N3]]].
    + destruct (str_slice_app_two p "0" "0") as [H1 H2]. cbn zeta in *.
      rewrite H1, H2, Hp, !string_length_app.
      split_and!; [done..| |by_decide].
      rewrite Hs, E. intros []. by_decide.
    + destruct (str_slice_app_two p "0" "0") as [H1 H2]. cbn zeta in *.
      rewrite H1, H2, Hp, !string_length_app.
      split_and!; [done..| |by_decide].
      rewrite Hs, E. intros []. by_decide.
    + destruct (str_slice_app_two p "0" "2") as [H1 H2]. cbn zeta in *.
      rewrite H1, H2, Hp, !string_length_app.
      split_and!; [done..| |by_decide].
      rewrite Hs, E. intros []. by_decide.
    + rewrite Hs, Hp. split_and!; [done..|].
      intros Hin. apply elem_of_cons in Hin as [?|Hin]; [done|].
      by apply list_elem_of_singleton in Hin.
Qed.

(** X15. The version fix changes at most the last two characters: the
    length of the scene and all that precedes its last two characters
    stay, and a scene whose last two characters are none of 01, 02, 03
    (or that is shorter than two characters) is returned as it is. The
    result never ends in 01 or in 03. *)
Theorem fix_version_keeps (scene : string) :
  String.length (fix_version scene) = String.length scene
  ∧ str_slice (fix_version scene) 0 (-2) = str_slice scene 0 (-2)
  ∧ (str_slice scene (-2) (len scene) ∉ ["01"; "02"; "03"] →
     fix_version scene = scene)
  ∧ str_slice (fix_version scene) (-2) (len (fix_version scene))
    ∉ ["01"; "03"].
Proof. apply fix_version_spec. Qed.

(** Loops that append one converted element per input. *)
Section append_loops.
Context {X Y : Type} (f : X → result Y).

Lemma append_result_eq (acc : list Y) (x : X) :
  append_result f acc x =
    match f x with
    | Ok y => Ok (acc ++ [y])
    | Raise e => Raise e
    end.
Proof. unfold append_result. by destruct (f x). Qed.

Lemma for_each_append_Ok_iff (l : list X) (acc ys : list Y) :
  for_each (append_result f) l acc = Ok ys
  ↔ ∃ ys', ys = acc ++ ys' ∧ Forall2 (λ x y, f x = Ok y) l ys'.
Proof.
  revert acc ys. induction l as [|x l IH]; intros acc ys.
  - cbn. split.
    + intros [= <-]. exists []. by rewrite app_nil_r.
    + intros (ys' & -> & Hnil%Forall2_nil_inv_l). subst. by rewrite app_nil_r.
  - rewrite for_each_cons, append_result_eq.
    destruct (f x) as [y|e] eqn:Hx; cbn.
    + rewrite IH. split.
      * intros (ys' & -> & Hall). exists (y :: ys').
        rewrite <-(assoc_L (++)). split; [done|]. by constructor.
      * intros (ys' & -> & Hall).
        apply Forall2_cons_inv_l in Hall as (y' & ys'' & Hy' & Hall & ->).
        exists ys''. rewrite <-(assoc_L (++)). cbn.
        split; [congruence|done].
    + split; [done|]. intros (ys' & _ & Hall).
      apply Forall2_cons_inv_l in Hall as (y' & ys'' & Hy' & _). congruence.
Qed.

Lemma for_each_append_raise (good rest : list X) (x : X) (e : exn)
    (acc ys : list Y) :
  Forall2 (λ x y, f x = Ok y) good ys → f x = Raise e →
  for_each (append_result f) (good ++ x :: rest) acc = Raise e.
Proof.
  intros Hgood Hx. rewrite for_each_app.
  assert (Hok : for_each (append_result f) good acc = Ok (acc ++ ys)).
  { apply for_each_append_Ok_iff. by exists ys. }
  rewrite Hok. cbn. by rewrite append_result_eq, Hx.
Qed.
End append_loops.

(** X16. For an [aws_index] of the shape [dir/scene/file], where
    neither [scene] nor [file] holds a ['/'], the scene taken is the
    part before the last ['/'], with its version fixed. *)
Theorem scene_of_path (record : gmap string string) (dir scene file : string) :
  record !! "aws_index" = Some (dir +:+ "/" +:+ scene +:+ "/" +:+ file) →
  "/"%char ∉ String.list_ascii_of_string scene →
  "/"%char ∉ String.list_ascii_of_string file →
  scene_of record = Ok (fix_version scene).
Proof.
  intros Hrec Hscene Hfile. unfold scene_of, getitem. rewrite Hrec. cbn.
  change ("/" +:+ scene +:+ "/" +:+ file)
    with (String "/" (scene +:+ String "/" file)).
  rewrite !split_app_separator.
  rewrite (split_no_separator "/" scene), (split_no_separator "/" file)
    by done.
  change ([scene] ++ [file]) with [scene; file].
  by rewrite index_Z_penultimate.
Qed.

Lemma scene_of_path_witness :
  scene_of {["aws_index" := "https://host/L8/121/045" +:+ "/"
                            +:+ "LC81210452017241LGN03" +:+ "/" +:+ "index.html"]}
  = Ok (fix_version "LC81210452017241LGN03").
Proof.
  apply (scene_of_path _ "https://host/L8/121/045"
           "LC81210452017241LGN03" "index.html");
    [reflexivity|by_decide|by_decide].
Defined.

(** X17. [getSceneList] returns a list exactly when every record yields
    a scene; the list then has one scene per record, in the order of the
    records, and no scene in it ends in 01 or 03. *)
Theorem getSceneList_Ok_iff (results : list (gmap string string))
    (scenes : list string) :
  (getSceneList results = Ok scenes
   ↔ Forall2 (λ record scene, scene_of record = Ok scene) results scenes)
  ∧ (getSceneList results = Ok scenes →
     length scenes = length results
     ∧ Forall (λ scene, str_slice scene (-2) (len scene) ∉ ["01"; "03"])
              scenes).
Proof.
  assert (Hiff : getSceneList results = Ok scenes
                 ↔ Forall2 (λ record scene, scene_of record = Ok scene)
                           results scenes).
  { unfold getSceneList. rewrite (for_each_append_Ok_iff scene_of). split.
    - by intros (ys' & -> & Hall).
    - intros Hall. by exists scenes. }
  split; [done|]. intros Hall%Hiff. split.
  - symmetry. by eapply Forall2_length.
  - clear Hiff. induction Hall as [|r sc rs scs Hr _ IH]; constructor; [|done].
    unfold scene_of in Hr. destruct (getitem r "aws_index"); [|done].
    cbn in Hr. destruct (index_Z _ _); [|done]. cbn in Hr.
    injection Hr as <-. apply fix_version_spec.
Qed.

(** X18. A record without an ['aws_index'] makes [getSceneList] stop
    with [KeyError], and one whose ['aws_index'] holds no ['/'] with
    [IndexError], once the records before it have yielded their scenes:
    no partial list is returned. *)
Theorem getSceneList_raises (good rest : list (gmap string string))
    (record : gmap string string) (scenes : list string) :
  Forall2 (λ r scene, scene_of r = Ok scene) good scenes →
  (record !! "aws_index" = None →
   getSceneList (good ++ record :: rest) = Raise KeyError)
  ∧ (∀ path, record !! "aws_index" = Some path →
       "/"%char ∉ String.list_ascii_of_string path →
       getSceneList (good ++ record :: rest) = Raise IndexError).
Proof.
  intros Hgood. split.
  - intros Hnone. unfold getSceneList.
    apply (for_each_append_raise scene_of _ _ _ _ _ scenes); [done|].
    unfold scene_of, getitem. by rewrite Hnone.
  - intros path Hpath Hno. unfold getSceneList.
    apply (for_each_append_raise scene_of _ _ _ _ _ scenes); [done|].
    unfold scene_of, getitem. rewrite Hpath. cbn.
    rewrite index_Z_penultimate_short; [done|].
    rewrite split_length_one by done. lia.
Qed.

Lemma getSceneList_raises_witness :
  (({["satellite" := "landsat-8"]} : gmap string string) !! "aws_index" = None →
   getSceneList ([{["aws_index" := "a/LC8001/index.html"]}]
                 ++ {["satellite" := "landsat-8"]} :: []) = Raise KeyError)
  ∧ (∀ path,
       ({["satellite" := "landsat-8"]} : gmap string string) !! "aws_index"
       = Some path →
       "/"%char ∉ String.list_ascii_of_string path →
       getSceneList ([{["aws_index" := "a/LC8001/index.html"]}]
                     ++ {["satellite" := "landsat-8"]} :: [])
       = Raise IndexError).
Proof.
  apply (getSceneList_raises [{["aws_index" := "a/LC8001/index.html"]}] []
           {["satellite" := "landsat-8"]} ["LC8000"]).
  repeat constructor; vm_compute; reflexivity.
Defined.

(** ** Further properties of the series *)

Section series_more.
Context {V : Type}.
Implicit Types (r : @record V) (results : list (@record V)).

Lemma project_present {W} (g : V → result W) field results :
  Forall present results →
  project g field results = comprehension g (omap (field_of field) results).
Proof.
  unfold project. induction 1 as [|r results [d ->] _ IH]; [done|].
  cbn. unfold getitem. destruct (d !! field) as [v|] eqn:Hv; cbn.
  - destruct (g v); cbn; [by rewrite IH|done].
  - apply IH.
Qed.

Lemma comprehension_length {X Y} (g : X → result Y) (l : list X)
    (ys : list Y) :
  comprehension g l = Ok ys → length ys = length l.
Proof.
  revert ys. induction l as [|x l IH]; intros ys; cbn.
  - by intros [= <-].
  - destruct (g x) as [y|]; cbn; [|done].
    destruct (comprehension g l) as [ys'|]; cbn; [|done].
    intros [= <-]. cbn. by rewrite (IH ys').
Qed.

Lemma count_carrying_all field results :
  Forall (λ r, truthy r = true → carries field r) results →
  count_carrying field results = length (filter_None results).
Proof.
  unfold count_carrying, filter_None.
  induction 1 as [|r results Hr _ IH]; [done|].
  rewrite !filter_cons.
  destruct (decide (truthy r = true)) as [Ht|Ht].
  - rewrite decide_True by auto. cbn. by rewrite IH.
  - rewrite decide_False; [done|]. intros Hc. by eapply Ht, carries_truthy.
Qed.
End series_more.

(** X19. After the filter, the NDVI series is exactly the list of the
    ['ndvi'] values of the results that carry one, in the order of the
    results; null results, empty results and results without the field
    contribute nothing. *)
Theorem ndviSeries_values {V} (results : list (@record V)) :
  ndviSeries (filter_None results) = Ok (omap (field_of "ndvi") results).
Proof.
  unfold ndviSeries. by rewrite project_filter_None, comprehension_Ok.
Qed.

(** X20. The filter only matters for null results: on a list without
    any, where empty dicts may still occur, every projection gives the
    same outcome with and without it. *)
Theorem project_without_filter {V W} (g : V → result W) (field : string)
    (results : list (@record V)) :
  Forall present results →
  project g field results = project g field (filter_None results).
Proof.
  intros Hall. by rewrite project_filter_None, project_present.
Qed.

Lemma project_without_filter_witness :
  project (λ v : Z, Ok (v + 1)%Z) "ndvi" [Some ∅; Some {["ndvi" := 7%Z]}]
  = project (λ v : Z, Ok (v + 1)%Z) "ndvi"
            (filter_None [Some ∅; Some {["ndvi" := 7%Z]}]).
Proof.
  apply (project_without_filter (λ v : Z, Ok (v + 1)%Z) "ndvi"
           [Some ∅; Some {["ndvi" := 7%Z]}]).
  repeat constructor; by eexists.
Defined.

(** X21. When every non-empty result carries the three fields ['date'],
    ['ndvi'] and ['cloud'], the three series that are plotted against
    each other, once they are computed, have the same length: one entry
    per result the filter keeps. *)
Theorem series_aligned {V T} (strptime : V → result T) (div100 : V → result V)
    (results : list (@record V)) (ts : list T) (ns cs : list V) :
  Forall (λ r, truthy r = true →
               carries "date" r ∧ carries "ndvi" r ∧ carries "cloud" r)
         results →
  timeStamps strptime (filter_None results) = Ok ts →
  ndviSeries (filter_None results) = Ok ns →
  cloudSeries div100 (filter_None results) = Ok cs →
  length ts = length (filter_None results)
  ∧ length ns = length (filter_None results)
  ∧ length cs = length (filter_None results).
Proof.
  unfold timeStamps, ndviSeries, cloudSeries.
  rewrite !project_filter_None. intros Hall Hts Hns Hcs.
  apply comprehension_length in Hts, Hns, Hcs.
  rewrite length_omap_field_of in Hts, Hns, Hcs.
  rewrite Hts, Hns, Hcs. split_and!; apply count_carrying_all;
    (eapply Forall_impl; [exact Hall|]); intros r Hr Ht;
    apply Hr in Ht as (? & ? & ?); done.
Qed.

Lemma series_aligned_witness :
  length [20170829%Z] = length (filter_None example_scene_results)
  ∧ length [7%Z] = length (filter_None example_scene_results)
  ∧ length [0%Z] = length (filter_None example_scene_results).
Proof.
  apply (series_aligned Ok (λ v, Ok (v `div` 100)%Z) example_scene_results).
  - by_decide.
  - vm_compute. reflexivity.
  - vm_compute. reflexivity.
  - vm_compute. reflexivity.
Defined.

(** ** The rows of the tag-cloud index *)

Lemma links_of_fmap (items : list item) : links_of items = link <$> items.
Proof.
  unfold links_of.
  assert (H : ∀ acc, foldl (λ links it, links ++ [link it]) acc items
                     = acc ++ (link <$> items)); [|apply H].
  induction items as [|it items IH]; intros acc; cbn.
  - by rewrite app_nil_r.
  - by rewrite IH, <-(assoc_L (++)).
Qed.

Lemma chunks_of_five {A} (l : list A) :
  ∃ rows rest, l = concat rows ++ rest
               ∧ Forall (λ row, length row = 5) rows ∧ length rest < 5.
Proof.
  remember (length l) as n eqn:Hn. revert l Hn.
  induction (lt_wf n) as [n _ IH]. intros l ->.
  destruct (decide (length l < 5)) as [Hlt|Hge].
  - exists [], l. by split_and!.
  - destruct (IH (length (drop 5 l))) with (l := drop 5 l)
      as (rows & rest & Hl & Hrows & Hrest); [rewrite length_drop; lia|done|].
    exists (take 5 l :: rows), rest. split_and!; [|constructor|]; [|by rewrite length_take; lia|done..].
    cbn. rewrite <-(assoc_L (++)), <-Hl. by rewrite take_drop.
Qed.

Lemma concat_str_app (l1 l2 : list string) :
  concat_str (l1 ++ l2) = concat_str l1 +:+ concat_str l2.
Proof.
  unfold concat_str. induction l1 as [|s l1 IH]; [done|].
  cbn [app foldr]. by rewrite IH, string_app_assoc.
Qed.

Section tagcloud_index_facts.
Context (md5_hexdigest : string → string) (S3BUCKET : string).

Abbreviation cell := (tagcloud_cell md5_hexdigest S3BUCKET).
Abbreviation step := (index_step md5_hexdigest S3BUCKET).

Lemma index_loop_no_break (row : list string) (output : string) (i : Z) :
  (∀ j, j < length row → ((i + Z.of_nat j) `mod` 5 ≠ 0)%Z) →
  foldl step (output, i) row
  = (output +:+ concat_str (cell <$> row), (i + Z.of_nat (length row))%Z).
Proof.
  revert output i. induction row as [|x row IH]; intros output i Hno.
  - cbn. by rewrite string_app_nil_r, Z.add_0_r.
  - cbn [foldl]. unfold index_step at 2. cbn [fst snd].
    rewrite decide_False
      by (specialize (Hno 0 ltac:(cbn; lia)); by rewrite Z.add_0_r in Hno).
    rewrite IH.
    + cbn [fmap list_fmap concat_str foldr length].
      rewrite string_app_assoc. f_equal. lia.
    + intros j Hj. specialize (Hno (S j) ltac:(cbn; lia)).
      by replace (i + 1 + Z.of_nat j)%Z with (i + Z.of_nat (S j))%Z by lia.
Qed.

Lemma index_loop_full_row (row : list string) (output : string) (i : Z) :
  (i `mod` 5 = 1)%Z → length row = 5 →
  foldl step (output, i) row
  = (output +:+ row_html md5_hexdigest S3BUCKET row, (i + 5)%Z).
Proof.
  intros Hi Hrow.
  destruct (list_last_two row) as [?|(r & x4 & x5 & ->)]; [lia|].
  rewrite length_app in Hrow. cbn in Hrow.
  change (r ++ [x4; x5]) with (r ++ [x4] ++ [x5]).
  rewrite (assoc_L (++)), foldl_app.
  rewrite index_loop_no_break.
  - rewrite length_app. cbn [length foldl]. unfold index_step. cbn [fst snd].
    rewrite decide_True
      by (replace (length r) with 3 by lia; cbn;
          revert Hi; Z.div_mod_to_equations; lia).
    unfold row_html. rewrite !fmap_app. cbn [fmap list_fmap].
    f_equal; [|lia].
    rewrite !string_app_assoc. f_equal.
    rewrite !concat_str_app. cbn.
    by rewrite !string_app_nil_r, !string_app_assoc.
  - intros j Hj. rewrite length_app in Hj. cbn in Hj.
    revert Hi. Z.div_mod_to_equations. lia.
Qed.

Lemma index_loop_rows (rows : list (list string)) (rest : list string)
    (output : string) (i : Z) :
  (i `mod` 5 = 1)%Z → Forall (λ row, length row = 5) rows → length rest < 5 →
  (foldl step (output, i) (concat rows ++ rest)).1
  = output +:+ concat_str (row_html md5_hexdigest S3BUCKET <$> rows)
    +:+ concat_str (cell <$> rest).
Proof.
  intros Hi Hrows Hrest. revert output i Hi.
  induction Hrows as [|row rows Hrow _ IH]; intros output i Hi.
  - cbn [concat app fmap list_fmap concat_str foldr].
    rewrite index_loop_no_break; [done|].
    intros j Hj. revert Hi. Z.div_mod_to_equations. lia.
  - cbn [concat]. rewrite <-(assoc_L (++)), foldl_app.
    rewrite index_loop_full_row by done.
    rewrite IH by (revert Hi; Z.div_mod_to_equations; lia).
    cbn [fmap list_fmap concat_str foldr]. by rewrite !string_app_assoc.
Qed.

(** X22. The index page is the opening of the table, then one closed
    row of exactly five cells for every full group of five links, then
    an open last row with the remaining cells, fewer than five and
    possibly none, then the closing of the table. Every link gets one
    cell, in order. *)
Theorem tagcloud_index_rows (links : list string) :
  ∃ rows rest,
    links = concat rows ++ rest
    ∧ Forall (λ row, length row = 5) rows ∧ length rest < 5
    ∧ tagcloud_index md5_hexdigest S3BUCKET links
      = "<!DOCTYPE html><html><body><table><tr>"
        +:+ concat_str (row_html md5_hexdigest S3BUCKET <$> rows)
        +:+ concat_str (cell <$> rest)
        +:+ "</tr></table></body></html>".
Proof.
  destruct (chunks_of_five links) as (rows & rest & -> & Hrows & Hrest).
  exists rows, rest. split_and!; [done..|].
  unfold tagcloud_index. rewrite index_loop_rows by done.
  by rewrite !string_app_assoc.
Qed.
End tagcloud_index_facts.
